(** * Santa's World Delivery: the autopilot, the compliance session and the
      draft parser of [app/components/santa-game.tsx]

    A shallow embedding of the logic of the [SantaGame] component and of the
    validation route, with the properties its specification states.

    Numbers.  JavaScript numbers are modelled as exact rationals ([Q]); the
    one irrational operation the code uses, [Math.hypot], is a parameter of
    the motion controller.  The pixel [isLand] looks up is computed as the
    code does, each operation rounded to the nearest double.  Strings are
    sequences of UTF-16 code units ([list N]); the ASCII literals of the
    source are written with [lit], the other code units as numbers.

    React.  The callbacks of the component (the frame loop, the compliance
    timer, the handlers of the modal) are functions on the component; they
    write the state through its setters, and read the refs and what the
    last render handed to their closures.  [commit] is a render with its
    mirror effects, which publishes the state to the refs and the closures.
    [Math.random], [crypto.randomUUID] and the clocks are inputs. *)

From Stdlib Require Import List String Ascii Bool Arith NArith ZArith QArith Qround
  DecimalString Lia.
Import ListNotations.
Local Open Scope list_scope.

(* ================================================================= *)
(** ** JavaScript strings *)

Module Js.

(** A code unit and a string of code units. *)
Definition char := N.
Definition jsstring := list char.

(** A literal of the source, one code unit per character (ASCII literals). *)
Fixpoint lit (s : string) : jsstring :=
  match s with
  | EmptyString => []
  | String a r => N_of_ascii a :: lit r
  end.

Definition LF : char := 10%N.
Definition CR : char := 13%N.

(** White space and line terminators: the set of [\s] and of [trim]. *)
Definition is_space (c : char) : bool :=
  ((9 <=? c) && (c <=? 13) || (c =? 32) || (c =? 160) || (c =? 5760)
   || (8192 <=? c) && (c <=? 8202)
   || (c =? 8232) || (c =? 8233) || (c =? 8239) || (c =? 8287)
   || (c =? 12288) || (c =? 65279))%N.

(** [\d] *)
Definition is_digit (c : char) : bool := ((48 <=? c) && (c <=? 57))%N.

Fixpoint dropWhile (p : char -> bool) (s : jsstring) : jsstring :=
  match s with
  | [] => []
  | c :: r => if p c then dropWhile p r else s
  end.

(** [String.prototype.trim] *)
Definition trim (s : jsstring) : jsstring :=
  rev (dropWhile is_space (rev (dropWhile is_space s))).

(** [replace] of every CR LF pair by LF (flag g: left to right). *)
Fixpoint replace_crlf (s : jsstring) : jsstring :=
  match s with
  | [] => []
  | c :: r =>
      match r with
      | d :: r' =>
          if ((c =? CR) && (d =? LF))%N then LF :: replace_crlf r'
          else c :: replace_crlf r
      | [] => [c]
      end
  end.

(** [split] at every LF: the empty string splits into one empty piece. *)
Fixpoint split_lines (s : jsstring) : list jsstring :=
  match s with
  | [] => [[]]
  | c :: r =>
      if (c =? LF)%N then [] :: split_lines r
      else match split_lines r with
           | l :: ls => (c :: l) :: ls
           | [] => [[c]]
           end
  end.

(** Truthiness of a string: [Boolean(s)], [s.length > 0]. *)
Definition nonempty (s : jsstring) : bool :=
  match s with [] => false | _ :: _ => true end.

End Js.

(* ================================================================= *)
(** ** The fragment of regular expressions the parser uses

    Backtracking matching in continuation-passing style, as the ECMAScript
    specification defines it.  Quantifiers apply to character sets only,
    which is all the two expressions of the parser need; the matcher is then
    structurally recursive.  The capture is group 1, which takes part in
    every match of both expressions. *)

Module Regex.
Import Js.

Definition charset := char -> bool.

Inductive regex : Type :=
| Eps                          (* the empty pattern *)
| Chr (p : charset)            (* one code unit of the set *)
| Cat (a b : regex)            (* ab *)
| Alt (a b : regex)            (* a|b *)
| Opt (p : charset)            (* [p]?  greedy *)
| Star (p : charset)           (* [p]*  greedy *)
| Plus (p : charset)           (* [p]+  greedy *)
| LazyStar (p : charset)       (* [p]*? *)
| Group (a : regex)            (* (a), capture 1 *)
| Ahead (a : regex)            (* (?=a) *)
| Eos.                         (* $ without the m flag *)

(** The continuation gets the rest of the input and the capture so far. *)
Definition cont := jsstring -> jsstring -> option jsstring.

Definition orelse {A} (x y : option A) : option A :=
  match x with Some _ => x | None => y end.

Fixpoint star_greedy (p : charset) (s cap : jsstring) (k : cont) : option jsstring :=
  match s with
  | c :: s' =>
      if p c then orelse (star_greedy p s' cap k) (k s cap) else k s cap
  | [] => k [] cap
  end.

Fixpoint star_lazy (p : charset) (s cap : jsstring) (k : cont) : option jsstring :=
  match k s cap with
  | Some r => Some r
  | None =>
      match s with
      | c :: s' => if p c then star_lazy p s' cap k else None
      | [] => None
      end
  end.

Fixpoint exec (r : regex) (s cap : jsstring) (k : cont) : option jsstring :=
  match r with
  | Eps => k s cap
  | Chr p =>
      match s with
      | c :: s' => if p c then k s' cap else None
      | [] => None
      end
  | Cat a b => exec a s cap (fun s1 cap1 => exec b s1 cap1 k)
  | Alt a b => orelse (exec a s cap k) (exec b s cap k)
  | Opt p =>
      match s with
      | c :: s' => if p c then orelse (k s' cap) (k s cap) else k s cap
      | [] => k s cap
      end
  | Star p => star_greedy p s cap k
  | Plus p =>
      match s with
      | c :: s' => if p c then star_greedy p s' cap k else None
      | [] => None
      end
  | LazyStar p => star_lazy p s cap k
  | Group a =>
      exec a s cap (fun s1 _ => k s1 (firstn (List.length s - List.length s1) s))
  | Ahead a =>
      match exec a s cap (fun _ c => Some c) with
      | Some c => k s c
      | None => None
      end
  | Eos => match s with [] => k s cap | _ :: _ => None end
  end.

(** [text.match(r)] for an expression without the g flag: the leftmost
    match; the result is [match[1]]. *)
Fixpoint search (r : regex) (s : jsstring) : option jsstring :=
  match exec r s [] (fun _ c => Some c) with
  | Some c => Some c
  | None =>
      match s with
      | [] => None
      | _ :: s' => search r s'
      end
  end.

(** Character sets.  Under the [i] flag an ASCII letter of the pattern
    matches exactly its two cases: a code unit of 128 or more never
    canonicalizes to an ASCII letter. *)
Definition upper (c : char) : char :=
  if ((97 <=? c) && (c <=? 122))%N then (c - 32)%N else c.

Definition ichar (a : ascii) : charset :=
  fun c => (upper c =? upper (N_of_ascii a))%N.

Definition any : charset := fun _ => true.
Definition one (d : char) : charset := fun c => (c =? d)%N.
Definition among (l : list char) : charset :=
  fun c => existsb (fun d => (c =? d)%N) l.

(** [Canonicalize] of the flag [i], for an expression without the flag
    [u]: the upper case of the code unit when that is one code unit, except
    that a code unit of 128 or more is never turned into one below 128.
    It is written out for the code units below 256: small a to z, the small
    letters of Latin-1 (all but the sharp s, whose upper case is two
    letters), the micro sign and the y with diaeresis.  From 256 on the
    code unit is returned as it is. *)
Definition canonical (c : char) : char :=
  if ((97 <=? c) && (c <=? 122))%N then (c - 32)%N
  else if ((224 <=? c) && (c <=? 254) && negb (c =? 247))%N then (c - 32)%N
  else if (c =? 181)%N then 924%N
  else if (c =? 255)%N then 376%N
  else c.

(** A class of the pattern under the [i] flag: a code unit is in it when
    its canonical form is that of a member.  For the members the parser
    lists (a hyphen, a colon and five code units below 8219) no code unit
    from 256 on has the canonical form of one but the member itself. *)
Definition iamong (l : list char) : charset :=
  fun c => existsb (fun d => (canonical c =? canonical d)%N) l.

(** A word of the pattern, letter by letter, under the [i] flag. *)
Fixpoint word (w : string) : regex :=
  match w with
  | EmptyString => Eps
  | String a r => Cat (Chr (ichar a)) (word r)
  end.

End Regex.

(* ================================================================= *)
(** ** The draft parser *)

Module Parser.
Import Js Regex.

Record DraftSections := {
  issue : jsstring;
  facts : jsstring;
  analysis : jsstring;
  actions : jsstring;
  references : list jsstring;
  raw : jsstring
}.

Definition emptyDraft : DraftSections :=
  {| issue := []; facts := []; analysis := []; actions := [];
     references := []; raw := [] |}.

(** [const dash], code unit by code unit as the source file has it: the
    hyphen, then U+201A, U+00C4, U+00EC and U+201A, U+00C4, U+00EE (an en
    dash and an em dash whose UTF-8 bytes were read as Mac Roman).  Neither
    the en dash (U+2013) nor the em dash (U+2014) is among them. *)
Definition dash : list char := [45; 8218; 196; 236; 8218; 196; 238]%N.

Definition ws : charset := is_space.
Definition colon : charset := one 58%N.
Definition ivx : charset :=
  fun c => ichar "I" c || ichar "V" c || ichar "X" c.

(** A sequence of patterns. *)
Definition seq (l : list regex) : regex := fold_right Cat Eps l.

(** The expression built by [getSection(label)], under the flag [i]: the word
    PART, white space, the label, then optional white space, an optional
    code unit of [dash], white space, an optional colon, white space; group
    1 is a lazy run
    of any code units, up to a position followed by a line feed and the next
    PART heading, by a line feed and REFERENCES or References, or by the end
    of the text. *)
Definition section_regex (label : string) : regex :=
  seq [ word "PART"; Plus ws; word label; Star ws; Opt (iamong dash); Star ws;
        Opt colon; Star ws; Group (LazyStar any);
        Ahead
          (Alt (seq [ Chr (one LF); word "PART"; Plus ws; Plus ivx; Star ws;
                      Opt (iamong dash); Star ws; Opt colon ])
          (Alt (seq [ Chr (one LF); word "REFERENCES" ])
          (Alt (seq [ Chr (one LF); word "References" ])
               Eos))) ].

(** The expression of [refsMatch], under the flag [i]: REFERENCE, an
    optional S, white space, any run of colons and code units of [dash],
    white space;
    group 1 is the rest of the text. *)
Definition refs_regex : regex :=
  seq [ word "REFERENCE"; Opt (ichar "S"); Star ws;
        Star (iamong (58%N :: dash)); Star ws; Group (Star any) ].

(** [text]: the content with every CR LF turned into LF, trimmed. *)
Definition normalized (content : jsstring) : jsstring :=
  trim (replace_crlf content).

Definition normalize (val : jsstring) : jsstring := trim val.

(** [getSection], with [text] the normalized content it closes over. *)
Definition getSection (text : jsstring) (label : string) : jsstring :=
  match search (section_regex label) text with
  | Some body => normalize body
  | None => []
  end.

(** [refsBlock] *)
Definition refsBlock (text : jsstring) : jsstring :=
  match search refs_regex text with
  | Some block => block
  | None => []
  end.

(** The cleaning of one reference line: the leading run of hyphens, stars,
    digits, dots and white space is removed, and the rest is trimmed. *)
Definition bullet : charset :=
  fun c => ((c =? 45) || (c =? 42) || is_digit c || (c =? 46) || is_space c)%N.

Definition clean_line (line : jsstring) : jsstring :=
  trim (dropWhile bullet line).

Definition references_of (block : jsstring) : list jsstring :=
  filter nonempty (map clean_line (split_lines block)).

Definition parseDraftContent (content : jsstring) : DraftSections :=
  let text := normalized content in
  let references := references_of (refsBlock text) in
  let s_issue := getSection text "I" in
  let s_facts := getSection text "II" in
  let s_analysis := getSection text "III" in
  let s_actions := getSection text "IV" in
  let hasContent := existsb nonempty [s_issue; s_facts; s_analysis; s_actions] in
  {| issue := if hasContent then s_issue else text;
     facts := s_facts;
     analysis := s_analysis;
     actions := s_actions;
     references := references;
     raw := text |}.

(** The four labels [getSection] is called with. *)
Definition labels : list string := ["I"; "II"; "III"; "IV"]%string.

(** No label is recognized: none of the four expressions matches. *)
Definition unrecognized (text : jsstring) : Prop :=
  forall label, In label labels -> search (section_regex label) text = None.

(** The text has the word PART somewhere, in any mix of cases. *)
Definition starts_with_part (s : jsstring) : bool :=
  match s with
  | p :: a :: r :: t :: _ => ichar "P" p && ichar "A" a && ichar "R" r && ichar "T" t
  | _ => false
  end.

Fixpoint mentions_part (s : jsstring) : bool :=
  starts_with_part s
  || match s with
     | [] => false
     | _ :: rest => mentions_part rest
     end.

(** No labelled section has content: the four bodies are empty. *)
Definition no_section_content (text : jsstring) : Prop :=
  forall label, In label labels -> getSection text label = [].

(** A REFERENCES marker followed by a line that is not empty. *)
Definition marker_with_lines (text : jsstring) : Prop :=
  exists block line,
    search refs_regex text = Some block
    /\ In line (split_lines block) /\ line <> [].

(** References survive the fallback, for any marker followed by lines. *)
Definition references_survive_fallback (content : jsstring) : Prop :=
  no_section_content (normalized content) ->
  marker_with_lines (normalized content) ->
  issue (parseDraftContent content) = normalized content
  /\ references (parseDraftContent content) <> [].

(** The text of the labelled example of the specification. *)
Definition labelled_example : jsstring :=
  lit "PART I: Issue text" ++ [LF] ++ lit "PART II: Facts text" ++ [LF]
  ++ lit "REFERENCES:" ++ [LF] ++ lit "- Source A" ++ [LF] ++ lit "- Source B".

(** A references block whose only line is a bare number. *)
Definition numbered_only : jsstring := lit "REFERENCES:" ++ [LF] ++ lit "1.".

(** Free text followed by a references block. *)
Definition unlabelled_with_references : jsstring :=
  lit "Draft pending." ++ [CR; LF] ++ lit "References:" ++ [LF]
  ++ lit "1. ICAO Annex 2" ++ [LF] ++ [LF] ++ lit "* FAA Order 7110.65".

End Parser.

(* ================================================================= *)
(** ** The data of the component *)

Module Game.
Import Js Parser.

Record House := {
  id : jsstring;
  label : jsstring;
  latitude : Q;
  longitude : Q;
  delivered : bool
}.

Record Position := { x : Q; y : Q }.

Record LogEntry := { log_id : jsstring; text : jsstring }.

Inductive ComplianceStage := idle | alert | drafting | ready | submitted.

Record ComplianceState := {
  active : bool;
  agency : option jsstring;
  stage : ComplianceStage
}.

Inductive Role := user | assistant | system.

Record ChatMessage := { role : Role; content : jsstring }.

(** What [useState] and [useChat] hold. *)
Record ReactState := {
  houses : list House;
  santa : Position;
  targetId : option jsstring;
  logs : list LogEntry;
  compliance : ComplianceState;
  isValidating : bool;
  draftSections : DraftSections;
  chatMessages : list ChatMessage
}.

(** The [useRef] cells. *)
Record Refs := {
  santaRef : Position;
  housesRef : list House;
  targetRef : option jsstring;
  complianceRef : ComplianceState;
  remainingRef : nat
}.

(** The component between two callbacks: the state, with the updates
    queued so far applied in their order; the state the last render saw,
    which is what the closures of that render captured; the refs; and the
    variable [last] of the running frame loop. *)
Record App := {
  state : ReactState;
  rendered : ReactState;
  refs : Refs;
  last : Q
}.

(** *** The state setters.  Each takes the updater function; a plain value
    [v] is set with [fun _ => v]. *)

Definition setHouses (f : list House -> list House) (s : ReactState) :=
  {| houses := f (houses s); santa := santa s; targetId := targetId s;
     logs := logs s; compliance := compliance s;
     isValidating := isValidating s; draftSections := draftSections s;
     chatMessages := chatMessages s |}.

Definition setSanta (p : Position) (s : ReactState) :=
  {| houses := houses s; santa := p; targetId := targetId s;
     logs := logs s; compliance := compliance s;
     isValidating := isValidating s; draftSections := draftSections s;
     chatMessages := chatMessages s |}.

Definition setTargetId (t : option jsstring) (s : ReactState) :=
  {| houses := houses s; santa := santa s; targetId := t;
     logs := logs s; compliance := compliance s;
     isValidating := isValidating s; draftSections := draftSections s;
     chatMessages := chatMessages s |}.

Definition setLogs (f : list LogEntry -> list LogEntry) (s : ReactState) :=
  {| houses := houses s; santa := santa s; targetId := targetId s;
     logs := f (logs s); compliance := compliance s;
     isValidating := isValidating s; draftSections := draftSections s;
     chatMessages := chatMessages s |}.

Definition setCompliance (f : ComplianceState -> ComplianceState) (s : ReactState) :=
  {| houses := houses s; santa := santa s; targetId := targetId s;
     logs := logs s; compliance := f (compliance s);
     isValidating := isValidating s; draftSections := draftSections s;
     chatMessages := chatMessages s |}.

Definition setIsValidating (b : bool) (s : ReactState) :=
  {| houses := houses s; santa := santa s; targetId := targetId s;
     logs := logs s; compliance := compliance s;
     isValidating := b; draftSections := draftSections s;
     chatMessages := chatMessages s |}.

Definition setDraftSections (d : DraftSections) (s : ReactState) :=
  {| houses := houses s; santa := santa s; targetId := targetId s;
     logs := logs s; compliance := compliance s;
     isValidating := isValidating s; draftSections := d;
     chatMessages := chatMessages s |}.

Definition setChatMessages (f : list ChatMessage -> list ChatMessage) (s : ReactState) :=
  {| houses := houses s; santa := santa s; targetId := targetId s;
     logs := logs s; compliance := compliance s;
     isValidating := isValidating s; draftSections := draftSections s;
     chatMessages := f (chatMessages s) |}.

(** Lifting to the component, and the two refs the frame loop assigns. *)
Definition update (f : ReactState -> ReactState) (a : App) : App :=
  {| state := f (state a); rendered := rendered a; refs := refs a;
     last := last a |}.

Definition assign_santaRef (p : Position) (a : App) : App :=
  {| state := state a; rendered := rendered a;
     refs := {| santaRef := p; housesRef := housesRef (refs a);
                targetRef := targetRef (refs a);
                complianceRef := complianceRef (refs a);
                remainingRef := remainingRef (refs a) |};
     last := last a |}.

Definition assign_targetRef (t : option jsstring) (a : App) : App :=
  {| state := state a; rendered := rendered a;
     refs := {| santaRef := santaRef (refs a); housesRef := housesRef (refs a);
                targetRef := t;
                complianceRef := complianceRef (refs a);
                remainingRef := remainingRef (refs a) |};
     last := last a |}.

Definition assign_last (t : Q) (a : App) : App :=
  {| state := state a; rendered := rendered a; refs := refs a; last := t |}.

(** *** Small pieces of JavaScript *)

Definition Qltb (a b : Q) : bool := negb (Qle_bool b a).

Definition Math_min (a b : Q) : Q := if Qltb b a then b else a.

(** [l[Math.floor(r * l.length)]]; [None] is [undefined]. *)
Definition random_element {A} (r : Q) (l : list A) : option A :=
  let i := Qfloor (r * inject_Z (Z.of_nat (List.length l))) in
  if (i <? 0)%Z then None else nth_error l (Z.to_nat i).

Fixpoint str_eqb (a b : jsstring) : bool :=
  match a, b with
  | [], [] => true
  | c :: a', d :: b' => (c =? d)%N && str_eqb a' b'
  | _, _ => false
  end.

(** A number in a template literal. *)
Definition decimal (n : nat) : jsstring :=
  lit (NilEmpty.string_of_uint (Nat.to_uint n)).

(** [[...current.slice(-12), entry]] *)
Definition push_log (entry : LogEntry) (current : list LogEntry) : list LogEntry :=
  skipn (List.length current - 12) current ++ [entry].

Definition undelivered (house : House) : bool := negb (delivered house).

(** [remainingDeliveries] *)
Definition remainingDeliveries (s : ReactState) : nat :=
  List.length (filter undelivered (houses s)).

Definition clamp (value min max : Q) : Q :=
  if Qltb value min then min
  else if Qltb max value then max
  else value.

End Game.

(* ================================================================= *)
(** ** The motion controller: the frame loop of the component *)

Module Motion.
Import Js Parser Game.

Definition speedPerSecond : Q := 22.
Definition arrivalRadius : Q := 14 # 10.

(** The target when [targetRef.current] is truthy: null and the empty
    string are falsy. *)
Definition truthy (t : option jsstring) : option jsstring :=
  match t with
  | Some tid => if nonempty tid then Some tid else None
  | None => None
  end.

(** [housesRef.current.find(...)]: the first house with the id of the target
    that is not delivered. *)
Definition resolve (tid : jsstring) (hs : list House) : option House :=
  find (fun house => str_eqb (id house) tid && negb (delivered house)) hs.

(** [pickNextTarget].  [rnd] is the value [Math.random()] returns and [uid]
    the one of [messageId()].  [None] is the TypeError of reading [next.id]
    when the index is outside the array, which no [rnd] of the interval
    from 0 (included) to 1 (excluded) causes. *)
Definition pickNextTarget (rnd : Q) (uid : jsstring) (a : App) : option App :=
  let remaining := filter undelivered (housesRef (refs a)) in
  match remaining with
  | [] => Some (update (setTargetId None) (assign_targetRef None a))
  | _ :: _ =>
      match random_element rnd remaining with
      | None => None
      | Some next =>
          let a := assign_targetRef (Some (id next)) a in
          let a := update (setTargetId (Some (id next))) a in
          Some (update (setLogs (push_log
                 {| log_id := uid;
                    text := lit "Routing to " ++ label next ++ lit " ("
                            ++ decimal (List.length remaining)
                            ++ lit " left after this)." |})) a)
      end
  end.

Section Step.

(** [Math.hypot] *)
Variable hypot : Q -> Q -> Q.

(** [step], one callback of [requestAnimationFrame].  The closure of the
    effect captured [compliance.active] of the render that installed it. *)
Definition step (timestamp rnd : Q) (uid : jsstring) (a : App) : option App :=
  let deltaSeconds := Math_min ((timestamp - last a) / 1000) (5 # 100) in
  let a := assign_last timestamp a in
  if active (compliance (rendered a)) then Some a
  else
  match truthy (targetRef (refs a)) with
  | None => pickNextTarget rnd uid a
  | Some tid =>
    match resolve tid (housesRef (refs a)) with
    | None => Some (update (setTargetId None) (assign_targetRef None a))
    | Some target =>
        let currentSanta := santaRef (refs a) in
        let dx := longitude target - x currentSanta in
        let dy := latitude target - y currentSanta in
        let distance := hypot dx dy in
        if Qltb distance arrivalRadius then
          let a := update (setHouses (map (fun house =>
                     if str_eqb (id house) (id target)
                     then {| id := id house; label := label house;
                             latitude := latitude house;
                             longitude := longitude house;
                             delivered := true |}
                     else house))) a in
          let a := update (setLogs (push_log
                     {| log_id := uid;
                        text := lit "Delivered at " ++ label target ++ lit "." |})) a in
          let a := assign_targetRef None a in
          Some (update (setTargetId None) a)
        else
          let magnitude := if Qeq_bool distance 0 then 1 else distance in
          let deltaX := (dx / magnitude) * speedPerSecond * deltaSeconds in
          let deltaY := (dy / magnitude) * speedPerSecond * deltaSeconds in
          let nextSanta :=
            {| x := clamp (x currentSanta + deltaX) 1 99;
               y := clamp (y currentSanta + deltaY) 1 99 |} in
          Some (update (setSanta nextSanta) (assign_santaRef nextSanta a))
    end
  end.

End Step.

End Motion.

(* ================================================================= *)
(** ** The interrupt scheduler *)

Module Scheduler.
Import Js Parser Game.

Definition AGENCIES : list jsstring :=
  [ lit "Federal Aviation Administration (FAA) - United States";
    lit "European Union Aviation Safety Agency (EASA) - Europe";
    lit "Civil Aviation Administration of China (CAAC) - China";
    lit "International Civil Aviation Organization (ICAO) - United Nations agency (global)";
    lit "North American Aerospace Defense Command (NORAD) - United States & Canada";
    lit "Transport Canada Civil Aviation (TCCA) - Canada";
    lit "Civil Aviation Authority (CAA) - United Kingdom";
    lit "Civil Aviation Safety Authority (CASA) - Australia";
    lit "Directorate General of Civil Aviation (DGCA) - India";
    lit "NAV CANADA - Canada (air navigation services)";
    lit "Skeyes (formerly Belgocontrol) - Belgium";
    lit "Skyguide - Switzerland";
    lit "Deutsche Flugsicherung (DFS) - Germany";
    lit "ENAV - Italy";
    lit "ENAIRE - Spain";
    lit "Direction des Services de la Navigation A" ++ [8730; 169]%N
      ++ lit "rienne (DSNA) - France";
    lit "Civil Aviation Authority of Singapore - Singapore";
    lit "Civil Aviation Authority of Bangladesh - Bangladesh";
    lit "Civil Aviation Authority of Nepal - Nepal";
    lit "Civil Aviation Authority of the Philippines - Philippines";
    lit "Russian Federal Air Transport Agency (Rosaviatsiya) - Russia";
    lit "General Authority of Civil Aviation - Saudi Arabia";
    lit "Civil Aviation Administration (Sweden) - Sweden";
    lit "PANSA (Polska Agencja " ++ [8776; 170]%N
      ++ lit "eglugi Powietrznej) - Poland";
    lit "State Air Traffic Management Corporation - South Africa" ].

(** An agency inside a template literal; [undefined] prints as such. *)
Definition shown (agency : option jsstring) : jsstring :=
  match agency with
  | Some name => name
  | None => lit "undefined"
  end.

Definition incident (agency : option jsstring) : ChatMessage :=
  {| role := assistant;
     content :=
       lit "Incident: " ++ shown agency
       ++ lit " has flagged Santa's sleigh during Christmas Eve gift runs. Share the airspace segment, timing, reindeer-safe altitudes, and corrective steps so the elves can draft a festive, regulation-ready response." |}.

(** [triggerCompliance], the timer callback.  [cancelled] is the flag the
    cleanup of the effect sets. *)
Definition triggerCompliance (cancelled : bool) (rnd : Q) (uid : jsstring)
    (a : App) : App :=
  if cancelled then a
  else
    let currentCompliance := complianceRef (refs a) in
    let remaining := remainingRef (refs a) in
    if negb (active currentCompliance) && (0 <? remaining)%nat then
      let agency := random_element rnd AGENCIES in
      let a := update (setCompliance (fun _ =>
                 {| active := true; agency := agency; stage := alert |})) a in
      let a := update (setChatMessages (fun _ => [incident agency])) a in
      let a := update (setDraftSections emptyDraft) a in
      update (setLogs (push_log
        {| log_id := uid;
           text := shown agency
                   ++ lit " has filed an airspace compliance action. Deliveries paused." |})) a
    else a.

End Scheduler.

(* ================================================================= *)
(** ** The compliance session: the handlers and the modal *)

Module Session.
Import Js Parser Game.

(** [startDrafting] *)
Definition startDrafting (uid : jsstring) (a : App) : App :=
  let a := update (setCompliance (fun prev =>
             {| active := active prev; agency := agency prev;
                stage := drafting |})) a in
  update (setLogs (push_log
    {| log_id := uid;
       text := lit "Elf council is drafting the compliance case. Provide details." |})) a.

(** [submitCase], up to the call of [setTimeout].  [stopChat] belongs to the
    chat hook and touches nothing of the component. *)
Definition submitCase (uid : jsstring) (a : App) : App :=
  let a := update (setCompliance (fun prev =>
             {| active := active prev; agency := agency prev;
                stage := submitted |})) a in
  update (setLogs (push_log
    {| log_id := uid;
       text := lit "Compliance case submitted. Resuming deliveries." |})) a.

(** The callback [submitCase] hands to [setTimeout], run 1600 ms later. *)
Definition submitCase_timeout (a : App) : App :=
  let a := update (setCompliance (fun _ =>
             {| active := false; agency := None; stage := idle |})) a in
  let a := update (setChatMessages (fun _ => [])) a in
  update (setDraftSections emptyDraft) a.

(** How the promise of [fetch] followed by [res.text()] settles: with the
    text of the body, whatever the status of the response, which the code
    does not read, or rejected. *)
Inductive Settled :=
| Resolved (body : jsstring)
| Rejected.

(** [validateCase] up to its [await]: the guard reads [isValidating] and
    [chatMessages] as the render that created the handler saw them.  The
    boolean tells whether the request was sent. *)
Definition validateCase_request (a : App) : App * bool :=
  if isValidating (rendered a)
     || (List.length (chatMessages (rendered a)) =? 0)%nat
  then (a, false)
  else (update (setIsValidating true) a, true).

(** [validateCase] from the [await] on: [try], [catch] and [finally]. *)
Definition validateCase_settle (r : Settled) (a : App) : App :=
  let a :=
    match r with
    | Resolved body =>
        let a := update (setChatMessages (fun current =>
                   current ++ [ {| role := assistant;
                                   content := if nonempty body then body
                                              else lit "Validation complete." |} ])) a in
        update (setCompliance (fun prev =>
          {| active := active prev; agency := agency prev; stage := ready |})) a
    | Rejected =>
        update (setChatMessages (fun current =>
          current ++ [ {| role := assistant;
                          content := lit "Validation failed. Please retry." |} ])) a
    end in
  update (setIsValidating false) a.

(** The body the route [POST] of [api/compliance/validate] answers with. *)
Definition validate_POST : jsstring :=
  lit "Validation complete. The compliance case has been reviewed and approved.".

(** A [Response] of [fetch]: its status and the text of its body.  [fetch]
    resolves with the response of the server whatever its status; it
    rejects only when no response arrives. *)
Record Response := {
  response_status : Z;
  response_text : jsstring
}.

(** [res.ok]: a status from 200 to 299. *)
Definition ok (res : Response) : bool :=
  ((200 <=? response_status res) && (response_status res <=? 299))%Z.

(** How the request of [validateCase] settles when [fetch] resolves with
    the response and [res.text()] with its body: [validateCase] reads
    neither [res.ok] nor [res.status]. *)
Definition answered (res : Response) : Settled :=
  Resolved (response_text res).

(** What a server answers when the route fails. *)
Definition server_error : Response :=
  {| response_status := 500; response_text := lit "Internal Server Error" |}.

(** Submitting at stage alert is rejected: the compliance state is left as
    it was. *)
Definition submit_rejected_in_alert : Prop :=
  forall (uid : jsstring) (a : App),
    stage (compliance (state a)) = alert ->
    compliance (state (submitCase uid a)) = compliance (state a).

(** *** The render and its effects

    A render publishes the state: the handlers created by it close over it,
    and the four mirror effects copy it into the refs.  The effect of the
    frame loop is keyed on [compliance.active]: when that changed, the loop
    is installed again and [last] starts from [performance.now()]. *)
Definition mirror (s : ReactState) : Refs :=
  {| santaRef := santa s;
     housesRef := houses s;
     targetRef := targetId s;
     complianceRef := compliance s;
     remainingRef := remainingDeliveries s |}.

Definition commit (now : Q) (a : App) : App :=
  {| state := state a;
     rendered := state a;
     refs := mirror (state a);
     last := if Bool.eqb (active (compliance (state a)))
                         (active (compliance (rendered a)))
             then last a else now |}.

(** The refs and the closures show the current state. *)
Definition published (a : App) : Prop :=
  rendered a = state a /\ refs a = mirror (state a).

(** *** The modal

    [ComplianceModal] is rendered when [compliance.active] holds, with the
    stage and [isValidating] of that render.  Each control is listed with
    its handler enabled or not, in the order of the markup. *)
Inductive Control := StartButton | ValidateButton | SubmitButton.

Definition control_eqb (c d : Control) : bool :=
  match c, d with
  | StartButton, StartButton => true
  | ValidateButton, ValidateButton => true
  | SubmitButton, SubmitButton => true
  | _, _ => false
  end.

Definition stage_eqb (s t : ComplianceStage) : bool :=
  match s, t with
  | idle, idle | alert, alert | drafting, drafting
  | ready, ready | submitted, submitted => true
  | _, _ => false
  end.

Definition ComplianceModal (stage : ComplianceStage) (isValidating : bool)
  : list (Control * bool) :=
  let isDrafting := stage_eqb stage drafting in
  let isReady := stage_eqb stage ready in
  let showStart := stage_eqb stage alert in
  (if showStart then [(StartButton, true)] else [])
  ++ (if isDrafting
      then [(ValidateButton, negb isValidating); (SubmitButton, isReady)]
      else [])
  ++ (if isReady then [(SubmitButton, true)] else []).

(** The controls on screen. *)
Definition screen (a : App) : list (Control * bool) :=
  if active (compliance (rendered a))
  then ComplianceModal (stage (compliance (rendered a))) (isValidating (rendered a))
  else [].

(** A click can reach a handler only through an enabled control on screen. *)
Definition clickable (c : Control) (a : App) : bool :=
  existsb (fun e => control_eqb (fst e) c && snd e) (screen a).

(** The user clicks: [onStartDrafting], [onValidate] or [onSubmit] runs when
    its control is on screen and enabled, and nothing happens otherwise. *)
Definition click (c : Control) (uid : jsstring) (a : App) : App :=
  if clickable c a then
    match c with
    | StartButton => startDrafting uid a
    | ValidateButton => fst (validateCase_request a)
    | SubmitButton => submitCase uid a
    end
  else a.

End Session.

(* ================================================================= *)
(** ** The component as a transition system *)

Module System.
Import Js Parser Game Motion Scheduler Session.

(** The effect that follows the transcript: the draft is parsed again from
    the last message of the assistant. *)
Definition draft_effect (a : App) : App :=
  match rev (filter (fun m => match role m with assistant => true | _ => false end)
                    (chatMessages (state a))) with
  | lastAssistant :: _ =>
      if nonempty (content lastAssistant)
      then update (setDraftSections (parseDraftContent (content lastAssistant))) a
      else a
  | [] => a
  end.

(** [sendChat]; [isSending] is the status of the chat hook, and
    [sendMessage] of the hook adds the message of the user. *)
Definition sendChat (isSending : bool) (message : jsstring) (a : App) : App :=
  if negb (nonempty (trim message)) || isSending then a
  else
    let a := update (setDraftSections emptyDraft) a in
    update (setChatMessages (fun current =>
      current ++ [ {| role := user; content := message |} ])) a.

(** The state of the first render. *)
Definition initial (uid : jsstring) : ReactState :=
  {| houses := [];
     santa := {| x := 48; y := 30 |};
     targetId := None;
     logs := [ {| log_id := uid;
                  text := lit "Autopilot engaged. Santa is handling every delivery on his own." |} ];
     compliance := {| active := false; agency := None; stage := idle |};
     isValidating := false;
     draftSections := emptyDraft;
     chatMessages := [] |}.

(** The component once mounted: the refs start from the initial state and
    [remainingRef] from 0. *)
Definition mounted (uid : jsstring) (now : Q) : App :=
  {| state := initial uid;
     rendered := initial uid;
     refs := {| santaRef := santa (initial uid);
                housesRef := houses (initial uid);
                targetRef := targetId (initial uid);
                complianceRef := compliance (initial uid);
                remainingRef := 0 |};
     last := now |}.

(** The mask has loaded (or failed to) and the houses are placed. *)
Definition placed (generated : list House) (mask : bool) (uid : jsstring)
    (a : App) : App :=
  let a := update (setHouses (fun _ => generated)) a in
  update (setLogs (push_log
    {| log_id := uid;
       text := if mask then lit "Loaded land mask. Houses placed only on land."
               else lit "Land mask unavailable. Houses placed anywhere." |})) a.

(** The component after the houses are placed and rendered; until then the
    frame loop finds no house and leaves position and target alone. *)
Definition started (generated : list House) (mask : bool) (uid0 uid1 : jsstring)
    (now : Q) : App :=
  commit now (placed generated mask uid1 (mounted uid0 now)).

(** What can happen next. *)
Inductive Event :=
| Frame (timestamp rnd : Q) (uid : jsstring)         (* requestAnimationFrame *)
| Timer (cancelled : bool) (rnd : Q) (uid : jsstring) (* the compliance timer *)
| Start (uid : jsstring)                             (* onStartDrafting *)
| Validate                                           (* onValidate *)
| Settle (r : Settled)                               (* the request settles *)
| Submit (uid : jsstring)                            (* onSubmit *)
| SubmitTimeout                                      (* 1600 ms after it *)
| Send (isSending : bool) (message : jsstring)       (* onSendMessage *)
| Stream (messages : list ChatMessage)               (* the chat hook *)
| DraftEffect
| Render (now : Q).

Section Run.

Variable hypot : Q -> Q -> Q.

Definition handle (e : Event) (a : App) : option App :=
  match e with
  | Frame timestamp rnd uid => step hypot timestamp rnd uid a
  | Timer cancelled rnd uid => Some (triggerCompliance cancelled rnd uid a)
  | Start uid => Some (startDrafting uid a)
  | Validate => Some (fst (validateCase_request a))
  | Settle r => Some (validateCase_settle r a)
  | Submit uid => Some (submitCase uid a)
  | SubmitTimeout => Some (submitCase_timeout a)
  | Send isSending message => Some (sendChat isSending message a)
  | Stream messages => Some (update (setChatMessages (fun _ => messages)) a)
  | DraftEffect => Some (draft_effect a)
  | Render now => Some (commit now a)
  end.

(** The states a sequence of events goes through, the first one included;
    the sequence stops where a callback throws. *)
Fixpoint trace (events : list Event) (a : App) : list App :=
  a :: match events with
       | [] => []
       | e :: rest =>
           match handle e a with
           | Some a' => trace rest a'
           | None => []
           end
       end.

(** The state a sequence of events ends in. *)
Fixpoint run (events : list Event) (a : App) : option App :=
  match events with
  | [] => Some a
  | e :: rest =>
      match handle e a with
      | Some a' => run rest a'
      | None => None
      end
  end.

(** The same when React renders after each callback, before the next one
    runs: [now] is the time of that render. *)
Fixpoint run_rendered (events : list (Event * Q)) (a : App) : option App :=
  match events with
  | [] => Some a
  | (e, now) :: rest =>
      match handle e a with
      | Some a' => run_rendered rest (commit now a')
      | None => None
      end
  end.

End Run.

(** The delivered flag of the i-th house. *)
Definition delivered_at (i : nat) (a : App) : bool :=
  match nth_error (houses (state a)) i with
  | Some house => delivered house
  | None => false
  end.

(** How often the flag of the i-th house goes from false to true, and from
    true to false, along a sequence of states. *)
Fixpoint flips (i : nat) (states : list App) : nat :=
  match states with
  | a :: rest =>
      match rest with
      | a' :: _ =>
          (if negb (delivered_at i a) && delivered_at i a' then 1 else 0)
          + flips i rest
      | [] => 0
      end
  | [] => 0
  end.

Fixpoint reverts (i : nat) (states : list App) : nat :=
  match states with
  | a :: rest =>
      match rest with
      | a' :: _ =>
          (if delivered_at i a && negb (delivered_at i a') then 1 else 0)
          + reverts i rest
      | [] => 0
      end
  | [] => 0
  end.

(** The position is inside the map. *)
Definition inside (p : Position) : Prop :=
  1 <= x p /\ x p <= 99 /\ 1 <= y p /\ y p <= 99.

(** The target, when there is one, is the id of a house not yet delivered. *)
Definition pursues_undelivered (target : option jsstring) (hs : list House) : Prop :=
  forall tid, target = Some tid ->
    exists house, In house hs /\ id house = tid /\ delivered house = false.

(** [Math.random] returns a number from 0, included, to 1, excluded. *)
Definition unit_interval (r : Q) : Prop := 0 <= r /\ r < 1.

(** The frames of a sequence draw as [Math.random] does. *)
Definition drawn_properly (e : Event) : Prop :=
  match e with
  | Frame _ rnd _ => unit_interval rnd
  | _ => True
  end.

(** The part of the component the motion controller works on is the same in
    two states. *)
Definition same_motion (a a' : App) : Prop :=
  houses (state a') = houses (state a)
  /\ santa (state a') = santa (state a)
  /\ targetId (state a') = targetId (state a)
  /\ refs a' = refs a.

(** A stand-in for [Math.hypot] to run examples with: the distance truncated
    to six decimals. *)
Definition hypot6 (dx dy : Q) : Q :=
  let n := Qfloor ((dx * dx + dy * dy) * 1000000000000) in
  Z.sqrt n # 1000000.

(** Two positions are the same point. *)
Definition same_place (p q : Position) : Prop :=
  x p == x q /\ y p == y q.

(** The states the component reaches: any sequence of callbacks and renders
    after the houses are placed. *)
Definition reached (hypot : Q -> Q -> Q) (a : App) : Prop :=
  exists generated mask uid0 uid1 now events,
    run hypot events (started generated mask uid0 uid1 now) = Some a.

(** Every frame that runs while the ComplianceState is active leaves the
    position, the target reference and the houses as they are. *)
Definition suspended_while_active : Prop :=
  forall hypot a timestamp rnd uid a',
    reached hypot a ->
    active (compliance (state a)) = true ->
    step hypot timestamp rnd uid a = Some a' ->
    same_place (santa (state a')) (santa (state a))
    /\ targetRef (refs a') = targetRef (refs a)
    /\ houses (state a') = houses (state a).

(** The timer callback leaves the ComplianceState, the transcript and the
    draft as they are whenever an event is active or no house is left to
    deliver to. *)
Definition never_activated_unduly : Prop :=
  forall hypot a cancelled rnd uid,
    reached hypot a ->
    active (compliance (state a)) = true
    \/ remainingDeliveries (state a) = 0%nat ->
    compliance (state (triggerCompliance cancelled rnd uid a))
    = compliance (state a)
    /\ chatMessages (state (triggerCompliance cancelled rnd uid a))
       = chatMessages (state a)
    /\ draftSections (state (triggerCompliance cancelled rnd uid a))
       = draftSections (state a).

(** Whenever the target reference is not null, it is the id of a house
    whose delivered flag is false. *)
Definition target_always_undelivered : Prop :=
  forall hypot a,
    reached hypot a ->
    pursues_undelivered (targetRef (refs a)) (houses (state a)).

End System.

(* ================================================================= *)
(** ** A small town to run the component on *)

Module Town.
Import Js Parser Game Motion Scheduler Session System.

Definition house1 : House :=
  {| id := lit "house-1"; label := lit "House 1";
     latitude := 34; longitude := 51; delivered := false |}.

Definition house2 : House :=
  {| id := lit "house-2"; label := lit "House 2";
     latitude := 30 # 1; longitude := 49 # 1; delivered := false |}.

Definition town : list House := [house1; house2].

(** The component started on the town at time 0. *)
Definition opening : App := started town true (lit "log-0") (lit "log-1") 0.

(** Two frames, each rendered: the first selects house 1, three units east
    and four units south of the sleigh, the second flies towards it. *)
Definition takeoff : list Event :=
  [ Frame 16 0 (lit "log-2"); Render 17; Frame 32 0 (lit "log-3"); Render 33 ].

(** Frames that select house 2, one unit from the sleigh, and deliver there,
    then select house 1. *)
Definition first_delivery : list Event :=
  [ Frame 16 (1 # 2) (lit "log-2"); Render 17;
    Frame 32 0 (lit "log-3"); Render 33;
    Frame 48 0 (lit "log-4"); Render 49 ].

(** The same three frames, for a run that renders after each event. *)
Definition delivery_frames : list (Event * Q) :=
  [ (Frame 16 (1 # 2) (lit "log-2"), 17);
    (Frame 32 0 (lit "log-3"), 33);
    (Frame 48 0 (lit "log-4"), 49) ].

(** The reference names a house that does not exist. *)
Definition stale : App := assign_targetRef (Some (lit "house-9")) opening.

(** The timer fires on the opening state and the alert is rendered. *)
Definition alerted : App :=
  commit 5000 (triggerCompliance false (1 # 2) (lit "log-2") opening).

(** The user has started drafting. *)
Definition in_drafting : App :=
  commit 6000 (click StartButton (lit "log-3") alerted).

(** A frame selects house 1 and is rendered; then the timer fires, and its
    alert is not rendered yet. *)
Definition alert_pending : list Event :=
  [ Frame 16 0 (lit "log-2"); Render 17;
    Timer false (1 # 2) (lit "log-3") ].

(** A town of one house, one unit east of the sleigh. *)
Definition hamlet : App := started [house2] true (lit "log-0") (lit "log-1") 0.

(** Two frames in a row: the first selects the house, the second delivers
    there.  No render has followed the delivery yet. *)
Definition last_delivery : list Event :=
  [ Frame 16 0 (lit "log-2"); Frame 32 0 (lit "log-3") ].

(** In the town of two houses: a frame selects house 2 and is rendered, the
    next frame delivers there and, before any render, a third frame selects
    a target again; then React renders. *)
Definition hasty_frames : list Event :=
  [ Frame 16 (1 # 2) (lit "log-2"); Render 17;
    Frame 32 0 (lit "log-3");
    Frame 48 (1 # 2) (lit "log-4"); Render 49 ].

End Town.

From Stdlib Require Import DecimalNat Qabs Lqa.

(* ================================================================= *)
(** ** The waypoint generator *)

Module Generator.
Import Js Parser Game.

(** *** 32-bit integers.  The numbers of [mulberry32] are integers, kept as
    [Z]; the bit operators first wrap their operands. *)
Definition ToUint32 (z : Z) : Z := (z mod 4294967296)%Z.

Definition ToInt32 (z : Z) : Z :=
  let m := ToUint32 z in
  if (m <? 2147483648)%Z then m else (m - 4294967296)%Z.

(** [a | b], [a ^ b], [a >>> n] and [Math.imul(a, b)] *)
Definition bor (a b : Z) : Z := Z.lor (ToInt32 a) (ToInt32 b).
Definition bxor (a b : Z) : Z := Z.lxor (ToInt32 a) (ToInt32 b).
Definition ushr (a n : Z) : Z := Z.shiftr (ToUint32 a) n.
Definition imul (a b : Z) : Z := ToInt32 (ToUint32 a * ToUint32 b).

(** One call of the closure [mulberry32] returns: the number drawn and the
    new value of [state]. *)
Definition mulberry32 (state : Z) : Q * Z :=
  let state := bor state 0 in
  let state := bor (state + 1831565813) 0 in
  let t := imul (bxor state (ushr state 15)) (bor state 1) in
  let t := bxor t (t + imul (bxor t (ushr t 7)) (bor t 61)) in
  (inject_Z (ushr (bxor t (ushr t 14)) 0) / 4294967296, state).

(** The first [n] numbers a generator seeded with [seed] returns. *)
Fixpoint draws (n : nat) (seed : Z) : list Q :=
  match n with
  | O => []
  | S n' => fst (mulberry32 seed) :: draws n' (snd (mulberry32 seed))
  end.

(** *** The land mask *)
Record MapMask := {
  data : list Z;
  width : Z;
  height : Z
}.

(** [Math.round]: the nearest integer, halves upwards. *)
Definition Math_round (q : Q) : Z := Qfloor (q + (1 # 2)).

(** *** Doubles.  The coordinates [generateHouses] draws are doubles whose
    value the rational holds exactly; the quotient and the product of
    [isLand] are rounded to the binary64 format, as every arithmetic
    operation of JavaScript is.

    The exponent of a positive number: the [e] with 2^e <= q < 2^(e+1). *)
Definition exponent (q : Q) : Z :=
  let k := (Z.log2 (Qnum q) - Z.log2 (Zpos (Qden q)))%Z in
  if Qle_bool (Qpower 2 k) q then k else (k - 1)%Z.

(** The nearest integer, a half going to the even one. *)
Definition nearest_even (q : Q) : Z :=
  let f := Qfloor q in
  match Qcompare (q - inject_Z f) (1 # 2) with
  | Lt => f
  | Gt => (f + 1)%Z
  | Eq => if Z.even f then f else (f + 1)%Z
  end.

(** The double nearest to [q], a tie going to the even significand: 53
    bits of significand, and the spacing 2^-1074 below 2^-1022.  A result
    beyond the largest double, which is Infinity in JavaScript, is not
    modelled; with coordinates from 3 to 97 and the dimensions of an image
    [isLand] is far from it. *)
Definition binary64 (q : Q) : Q :=
  if Qeq_bool q 0 then 0
  else
    let spacing := Qpower 2 (Z.max (exponent (Qabs q) - 52) (-1074)) in
    let significand := nearest_even (Qabs q / spacing) in
    (if Qle_bool 0 q then 1 else -1) * (inject_Z significand * spacing).

(** [data[i]]; [None] is [undefined]. *)
Definition at_index (l : list Z) (i : Z) : option Z :=
  if (i <? 0)%Z then None else nth_error l (Z.to_nat i).

(** The index [isLand] reads the alpha of. *)
Definition alpha_index (mask : MapMask) (latitude longitude : Q) : Z :=
  let pxX := Z.max 0 (Z.min (width mask - 1)
                 (Math_round (binary64 (binary64 (longitude / 100)
                                        * inject_Z (width mask))))) in
  let pxY := Z.max 0 (Z.min (height mask - 1)
                 (Math_round (binary64 (binary64 (latitude / 100)
                                        * inject_Z (height mask))))) in
  let idx := ((pxY * width mask + pxX) * 4)%Z in
  (idx + 3)%Z.

(** [isLand]; comparing [undefined] with 10 is false. *)
Definition isLand (mask : option MapMask) (latitude longitude : Q) : bool :=
  match mask with
  | None => true
  | Some mask =>
      match at_index (data mask) (alpha_index mask latitude longitude) with
      | Some alpha => (10 <? alpha)%Z
      | None => false
      end
  end.

(** *** [generateHouses] *)
Definition seed : Z := 20241214.

Definition new_house (houses : list House) (latitude longitude : Q) : House :=
  {| id := lit "house-" ++ decimal (List.length houses + 1);
     label := lit "House " ++ decimal (List.length houses + 1);
     latitude := latitude;
     longitude := longitude;
     delivered := false |}.

(** The first loop; [budget] is what is left of [maxAttempts]. *)
Fixpoint place (mask : option MapMask) (count budget : nat)
    (houses : list House) (state : Z) : list House * Z :=
  match budget with
  | O => (houses, state)
  | S budget' =>
      if (List.length houses <? count)%nat then
        let (r1, state1) := mulberry32 state in
        let latitude := 3 + r1 * 94 in
        let (r2, state2) := mulberry32 state1 in
        let longitude := 3 + r2 * 94 in
        if negb (isLand mask latitude longitude)
        then place mask count budget' houses state2
        else place mask count budget'
               (houses ++ [new_house houses latitude longitude]) state2
      else (houses, state)
  end.

(** The second loop, which runs once for each house still missing. *)
Fixpoint fill (count missing : nat) (houses : list House) (state : Z)
  : list House :=
  match missing with
  | O => houses
  | S missing' =>
      if (List.length houses <? count)%nat then
        let (r1, state1) := mulberry32 state in
        let latitude := 3 + r1 * 94 in
        let (r2, state2) := mulberry32 state1 in
        let longitude := 3 + r2 * 94 in
        fill count missing'
          (houses ++ [new_house houses latitude longitude]) state2
      else houses
  end.

Definition generateHouses (count : nat) (mask : option MapMask) : list House :=
  let maxAttempts := (count * 80)%nat in
  let (houses, state) := place mask count maxAttempts [] seed in
  fill count (count - List.length houses) houses state.

(** What [generateHouses] gives the i-th house, counting from 0: its id and
    label carry the number i + 1, it is not delivered, and it lies between
    3 and 97 on both axes. *)
Definition numbered (i : nat) (house : House) : Prop :=
  id house = lit "house-" ++ decimal (i + 1)
  /\ label house = lit "House " ++ decimal (i + 1)
  /\ delivered house = false
  /\ 3 <= latitude house /\ latitude house < 97
  /\ 3 <= longitude house /\ longitude house < 97.

Definition well_placed (houses : list House) : Prop :=
  forall i house, nth_error houses i = Some house -> numbered i house.

(** The coordinates the first [n] attempts of the first loop try, latitude
    first, from a generator in the given state. *)
Fixpoint candidates (n : nat) (state : Z) : list (Q * Q) :=
  match n with
  | O => []
  | S n' =>
      let (r1, state1) := mulberry32 state in
      let (r2, state2) := mulberry32 state1 in
      (3 + r1 * 94, 3 + r2 * 94) :: candidates n' state2
  end.

(** How many of them are on land. *)
Definition land_found (mask : option MapMask) (n : nat) (state : Z) : nat :=
  List.length (filter (fun c => isLand mask (fst c) (snd c)) (candidates n state)).

(** A house is on the land of the mask. *)
Definition on_land (mask : option MapMask) (house : House) : bool :=
  isLand mask (latitude house) (longitude house).

(** A mask of two pixels by one: the left one sea, the right one land. *)
Definition half_land : MapMask :=
  {| data := [0; 0; 0; 0; 0; 0; 0; 255]%Z; width := 2; height := 1 |}.

(** A mask of one pixel of sea. *)
Definition all_sea : MapMask :=
  {| data := [0; 0; 0; 0]%Z; width := 1; height := 1 |}.

End Generator.

(* ================================================================= *)
(** ** What the panels of the component show *)

Module Panel.
Import Js Parser Game Motion.

(** [deltaSeconds] of a frame. *)
Definition deltaSeconds (timestamp : Q) (a : App) : Q :=
  Math_min ((timestamp - last a) / 1000) (5 # 100).

(** The distance a frame measures from the sleigh to a house. *)
Definition distance_to (hypot : Q -> Q -> Q) (target : House) (p : Position) : Q :=
  hypot (longitude target - x p) (latitude target - y p).

(** [currentTarget] *)
Definition currentTarget (s : ReactState) : option House :=
  find (fun house =>
          match targetId s with
          | Some tid => str_eqb (id house) tid && negb (delivered house)
          | None => false
          end) (houses s).

(** Two lists of houses differ by deliveries only: the same houses in the
    same places, with every flag that was set still set. *)
Definition delivered_more (before after : list House) : Prop :=
  Forall2 (fun house house' =>
             id house' = id house
             /\ label house' = label house
             /\ latitude house' = latitude house
             /\ longitude house' = longitude house
             /\ (delivered house = true -> delivered house' = true))
          before after.

(** The log went from one list to the other by zero or one entry. *)
Definition logged (before after : list LogEntry) : Prop :=
  after = before \/ exists entry, after = push_log entry before.

End Panel.

(* ================================================================= *)
(** ** More scenes in the small town *)

Module Scenes.
Import Js Parser Game Motion Scheduler Session System.

(** A whole session after the alert, each callback rendered: a frame, the
    draft started, validation asked and answered by the route, the case
    submitted, and a frame again before the time-out. *)
Definition session : list (Event * Q) :=
  [ (Frame 5016 (1 # 3) (lit "log-3"), 5017);
    (Start (lit "log-4"), 6000);
    (Validate, 7000);
    (Settle (Resolved validate_POST), 10000);
    (Submit (lit "log-5"), 11000);
    (Frame 11016 (1 # 3) (lit "log-6"), 11017) ].



End Scenes.

(* ================================================================= *)
(** ** The client of the drafting service: [lib/dedalus.ts] *)

Module Dedalus.
Import Js Game.

Inductive Environment := development | production.

(** [ClientOptions]; [None] is a field left out or [undefined]. *)
Record ClientOptions := {
  apiKey : option jsstring;
  environment : option Environment
}.

(** A call returns a value or throws an [Error] with a message. *)
Inductive Outcome (A : Type) :=
| Returned (value : A)
| Thrown (message : jsstring).
Arguments Returned {A} value.
Arguments Thrown {A} message.

(** [process.env]: the value of each variable; [None] is [undefined]. *)
Definition ProcessEnv := jsstring -> option jsstring.

Definition DEDALUS_API_KEY (env : ProcessEnv) : option jsstring :=
  env (lit "DEDALUS_API_KEY").

Definition DEDALUS_ENV (env : ProcessEnv) : option jsstring :=
  env (lit "DEDALUS_ENV").

(** [env] of [getDedalusClient] *)
Definition chosen_environment (env : ProcessEnv) : Environment :=
  match DEDALUS_ENV env with
  | Some v =>
      if str_eqb v (lit "development") then development
      else if str_eqb v (lit "production") then production
      else production
  | None => production
  end.

Section Library.

(** The class [Dedalus] comes from the package dedalus-labs, which is not
    part of the repository.  Its instances are of some type [Client]; its
    constructor, called with the key and the environment, returns an
    instance or throws, and as it runs in the process it may read
    [process.env] too. *)
Variable Client : Type.
Variable new_Dedalus : ProcessEnv -> jsstring -> Environment -> Outcome Client.

(** [buildClient], called while the environment is [env]; an absent key
    and the empty key are both falsy. *)
Definition buildClient (env : ProcessEnv) (options : ClientOptions)
  : Outcome Client :=
  match apiKey options with
  | Some key =>
      if nonempty key then
        new_Dedalus env key
          match environment options with
          | Some e => e
          | None => production
          end
      else Thrown (lit "Missing DEDALUS_API_KEY. Set it in your environment or .env file.")
  | None => Thrown (lit "Missing DEDALUS_API_KEY. Set it in your environment or .env file.")
  end.

(** [getDedalusClient]: the result and the new value of [cachedClient],
    which is assigned only when [buildClient] returns. *)
Definition getDedalusClient (env : ProcessEnv) (cachedClient : option Client)
  : Outcome Client * option Client :=
  match cachedClient with
  | Some client => (Returned client, cachedClient)
  | None =>
      match buildClient env {| apiKey := DEDALUS_API_KEY env;
                               environment := Some (chosen_environment env) |} with
      | Returned client => (Returned client, Some client)
      | Thrown message => (Thrown message, None)
      end
  end.

(** The results of calls made one after the other, each with the
    environment of its time, and the cache they leave. *)
Fixpoint calls (envs : list ProcessEnv) (cachedClient : option Client)
  : list (Outcome Client) * option Client :=
  match envs with
  | [] => ([], cachedClient)
  | env :: rest =>
      let (result, cache) := getDedalusClient env cachedClient in
      let (results, final) := calls rest cache in
      (result :: results, final)
  end.

End Library.

Arguments buildClient {Client} new_Dedalus env options.
Arguments getDedalusClient {Client} new_Dedalus env cachedClient.
Arguments calls {Client} new_Dedalus envs cachedClient.

(** *** Environments and a constructor to run examples with *)

Definition unset : ProcessEnv := fun _ => None.

Definition setenv (name value : string) (env : ProcessEnv) : ProcessEnv :=
  fun variable => if str_eqb variable (lit name) then Some (lit value)
                  else env variable.

(** A constructor that keeps what it is given, and refuses to build when
    the environment sets DEDALUS_BASE_URL. *)
Record Kept := {
  kept_apiKey : jsstring;
  kept_environment : Environment
}.

Definition strict (env : ProcessEnv) (key : jsstring) (e : Environment)
  : Outcome Kept :=
  match env (lit "DEDALUS_BASE_URL") with
  | Some _ => Thrown (lit "Ambiguous URL")
  | None => Returned {| kept_apiKey := key; kept_environment := e |}
  end.

End Dedalus.

(* ================================================================= *)
(** ** Shapes of texts the parser meets *)

Module Texts.
Import Js Regex Parser Game.

(** A text without white space at either end. *)
Definition trimmed (s : jsstring) : Prop := trim s = s.

(** The text fields of a draft. *)
Definition text_fields (d : DraftSections) : list jsstring :=
  [issue d; facts d; analysis d; actions d; raw d].

(** The text begins with the word, in any mix of cases. *)
Fixpoint begins (w : string) (s : jsstring) : bool :=
  match w with
  | EmptyString => true
  | String a w' =>
      match s with
      | c :: s' => ichar a c && begins w' s'
      | [] => false
      end
  end.

(** The text holds the word somewhere, in any mix of cases. *)
Fixpoint mentions (w : string) (s : jsstring) : bool :=
  begins w s
  || match s with
     | [] => false
     | _ :: rest => mentions w rest
     end.

(** What follows the label in the expression of [getSection]. *)
Definition section_tail : regex :=
  seq [ Star ws; Opt (iamong dash); Star ws; Opt colon; Star ws;
        Group (LazyStar any);
        Ahead
          (Alt (seq [ Chr (one LF); word "PART"; Plus ws; Plus ivx; Star ws;
                      Opt (iamong dash); Star ws; Opt colon ])
          (Alt (seq [ Chr (one LF); word "REFERENCES" ])
          (Alt (seq [ Chr (one LF); word "References" ])
               Eos))) ].

(** The continuation of [search]: the match is found, the capture is the
    result. *)
Definition found : cont := fun _ capture => Some capture.

(** A text with a CR, two letters, CR CR LF and a letter. *)
Definition stacked_returns : jsstring := [97; 13; 13; 10; 98]%N.

End Texts.

(* ================================================================= *)
(** * Properties *)

Import Js Regex Parser Game Motion Scheduler Session System.

(* ================================================================= *)
(** ** The draft parser *)

(** A pattern that begins with the word PART fails where the text does not
    begin with it. *)
Lemma exec_part_fails (r : regex) (s cap : jsstring) (k : cont) :
  starts_with_part s = false ->
  exec (Cat (word "PART") r) s cap k = None.
Proof.
  intros H. cbn [exec word].
  destruct s as [|p [|a [|c [|t rest]]]]; cbn; try reflexivity;
    try (destruct (ichar "P" p); [|reflexivity];
         try (destruct (ichar "A" a); [|reflexivity]);
         try (destruct (ichar "R" c); [|reflexivity]); reflexivity).
  cbn in H.
  destruct (ichar "P" p); [|reflexivity].
  destruct (ichar "A" a); [|reflexivity].
  destruct (ichar "R" c); [|reflexivity].
  destruct (ichar "T" t); [discriminate|reflexivity].
Qed.

Lemma search_part_fails (r : regex) (s : jsstring) :
  mentions_part s = false -> search (Cat (word "PART") r) s = None.
Proof.
  induction s as [|c s IH]; intros H.
  - cbn [search]. rewrite exec_part_fails; reflexivity.
  - cbn [mentions_part] in H. apply orb_false_iff in H as [H1 H2].
    cbn [search]. rewrite exec_part_fails by exact H1. apply IH, H2.
Qed.

(** A text that never mentions the word PART has no label recognized. *)
Lemma unmentioned_unrecognized (text : jsstring) :
  mentions_part text = false -> unrecognized text.
Proof.
  intros H label _. unfold section_regex, seq. cbn [fold_right].
  apply search_part_fails, H.
Qed.

(** C5.  When none of the four PART labels is recognized in the normalized
    text (none of the four section expressions matches), the parser
    returns the whole normalized text as [issue], and [facts], [analysis]
    and [actions] are empty. *)
Theorem parse_fallback (content : jsstring) :
  unrecognized (normalized content) ->
  issue (parseDraftContent content) = normalized content
  /\ facts (parseDraftContent content) = []
  /\ analysis (parseDraftContent content) = []
  /\ actions (parseDraftContent content) = []
  /\ raw (parseDraftContent content) = normalized content.
Proof.
  intros H.
  assert (E : forall label, In label labels ->
                getSection (normalized content) label = []).
  { intros label Hl. unfold getSection. rewrite (H label Hl). reflexivity. }
  unfold parseDraftContent. cbn [issue facts analysis actions raw].
  rewrite !E by (cbn; tauto). cbn. repeat split.
Qed.

Lemma parse_fallback_witness :
  unrecognized (normalized (lit "Hello elves"))
  /\ issue (parseDraftContent (lit "Hello elves")) = lit "Hello elves"
  /\ facts (parseDraftContent (lit "Hello elves")) = []
  /\ analysis (parseDraftContent (lit "Hello elves")) = []
  /\ actions (parseDraftContent (lit "Hello elves")) = [].
Proof.
  assert (U : unrecognized (normalized (lit "Hello elves"))).
  { intros label Hl. cbn in Hl.
    destruct Hl as [<-|[<-|[<-|[<-|[]]]]]; vm_compute; reflexivity. }
  split; [exact U|].
  destruct (parse_fallback (lit "Hello elves") U) as (I & F & A & C & _).
  repeat split; assumption.
Defined.

(** C6.  The labelled example of the specification parses into the issue
    "Issue text", the facts "Facts text" and the two references "Source A"
    and "Source B". *)
Theorem parse_labelled :
  issue (parseDraftContent labelled_example) = lit "Issue text"
  /\ facts (parseDraftContent labelled_example) = lit "Facts text"
  /\ references (parseDraftContent labelled_example)
     = [lit "Source A"; lit "Source B"].
Proof. vm_compute. repeat split. Qed.

(** C10, as stated, fails: in the text made of the line REFERENCES: and the
    line 1. no section has content and the marker is followed by a line
    that is not empty, yet nothing of that line is left after the cleaning
    and the list of references is empty. *)
Lemma bare_number_reference_dropped :
  ~ (forall content, references_survive_fallback content).
Proof.
  intros H. specialize (H numbered_only).
  assert (S : no_section_content (normalized numbered_only)).
  { intros label Hl. cbn in Hl.
    destruct Hl as [<-|[<-|[<-|[<-|[]]]]]; vm_compute; reflexivity. }
  assert (M : marker_with_lines (normalized numbered_only)).
  { exists (lit "1."), (lit "1."). split; [|split].
    - vm_compute. reflexivity.
    - vm_compute. left. reflexivity.
    - discriminate. }
  destruct (H S M) as [_ R]. apply R. vm_compute. reflexivity.
Qed.

(** C10, amended.  The fallback looks at the four bodies and not at the
    references: when the four section bodies are empty and the REFERENCES
    marker is followed by at least one line that keeps some text once its
    leading hyphens, stars, digits, dots and white space are removed, the
    issue is the whole normalized text and the list of references is not
    empty; it holds exactly the lines of the block so cleaned that are not
    empty, in their order. *)
Theorem references_independent_of_fallback (content block line : jsstring) :
  no_section_content (normalized content) ->
  search refs_regex (normalized content) = Some block ->
  In line (split_lines block) ->
  clean_line line <> [] ->
  issue (parseDraftContent content) = normalized content
  /\ references (parseDraftContent content)
     = filter nonempty (map clean_line (split_lines block))
  /\ In (clean_line line) (references (parseDraftContent content))
  /\ references (parseDraftContent content) <> [].
Proof.
  intros S M L C.
  assert (R : references (parseDraftContent content)
              = filter nonempty (map clean_line (split_lines block))).
  { unfold parseDraftContent. cbn [references].
    unfold refsBlock. rewrite M. reflexivity. }
  assert (I : In (clean_line line) (references (parseDraftContent content))).
  { rewrite R. apply filter_In. split.
    - apply in_map, L.
    - destruct (clean_line line); [contradiction|reflexivity]. }
  split; [|split; [|split]].
  - unfold parseDraftContent. cbn [issue].
    rewrite !S by (cbn; tauto). reflexivity.
  - exact R.
  - exact I.
  - intros E. rewrite E in I. exact I.
Qed.

Lemma references_independent_of_fallback_witness :
  issue (parseDraftContent unlabelled_with_references)
  = normalized unlabelled_with_references
  /\ references (parseDraftContent unlabelled_with_references)
     = [lit "ICAO Annex 2"; lit "FAA Order 7110.65"].
Proof.
  destruct (references_independent_of_fallback unlabelled_with_references
              (lit "1. ICAO Annex 2" ++ [LF] ++ [LF] ++ lit "* FAA Order 7110.65")
              (lit "1. ICAO Annex 2")) as (I & R & _ & _).
  - intros label Hl. cbn in Hl.
    destruct Hl as [<-|[<-|[<-|[<-|[]]]]]; vm_compute; reflexivity.
  - vm_compute. reflexivity.
  - vm_compute. left. reflexivity.
  - vm_compute. discriminate.
  - split; [exact I|]. rewrite R. vm_compute. reflexivity.
Defined.

(* ================================================================= *)
(** ** The motion controller *)

Lemma Qltb_false (a b : Q) : Qltb a b = false -> b <= a.
Proof.
  unfold Qltb. intros H. apply negb_false_iff in H.
  apply Qle_bool_iff, H.
Qed.

(** [clamp] returns a value between its bounds. *)
Lemma clamp_between (value lo hi : Q) :
  lo <= hi -> lo <= clamp value lo hi /\ clamp value lo hi <= hi.
Proof.
  intros B. unfold clamp.
  destruct (Qltb value lo) eqn:L.
  - split; [apply Qle_refl|exact B].
  - destruct (Qltb hi value) eqn:H.
    + split; [exact B|apply Qle_refl].
    + split; [apply Qltb_false, L|apply Qltb_false, H].
Qed.

Lemma clamped_inside (px py : Q) :
  inside {| x := clamp px 1 99; y := clamp py 1 99 |}.
Proof.
  assert (B : 1 <= 99) by discriminate.
  destruct (clamp_between px 1 99 B), (clamp_between py 1 99 B).
  unfold inside; cbn. tauto.
Qed.

(** [pickNextTarget] leaves houses and position alone, and what it selects
    is a house of [housesRef] that is not delivered. *)
Lemma pickNextTarget_frame (rnd : Q) (uid : jsstring) (a a' : App) :
  pickNextTarget rnd uid a = Some a' ->
  houses (state a') = houses (state a)
  /\ santa (state a') = santa (state a)
  /\ santaRef (refs a') = santaRef (refs a)
  /\ housesRef (refs a') = housesRef (refs a)
  /\ targetId (state a') = targetRef (refs a')
  /\ compliance (state a') = compliance (state a)
  /\ rendered a' = rendered a.
Proof.
  unfold pickNextTarget.
  destruct (filter undelivered (housesRef (refs a))) as [|h rest].
  - intros [= <-]. cbn. tauto.
  - destruct (random_element rnd (h :: rest)) as [next|]; [|discriminate].
    intros [= <-]. cbn. tauto.
Qed.

Lemma random_element_In {A} (r : Q) (l : list A) (e : A) :
  random_element r l = Some e -> In e l.
Proof.
  unfold random_element.
  destruct (Qfloor _ <? 0)%Z; [discriminate|].
  apply nth_error_In.
Qed.

Lemma pickNextTarget_selects (rnd : Q) (uid : jsstring) (a a' : App) :
  pickNextTarget rnd uid a = Some a' ->
  pursues_undelivered (targetRef (refs a')) (housesRef (refs a)).
Proof.
  unfold pickNextTarget.
  destruct (filter undelivered (housesRef (refs a))) as [|h rest] eqn:F.
  - intros [= <-] tid. cbn. discriminate.
  - destruct (random_element rnd (h :: rest)) as [next|] eqn:R; [|discriminate].
    intros [= <-] tid. cbn. intros [= <-].
    apply random_element_In in R. rewrite <- F in R.
    apply filter_In in R as [I U].
    exists next. repeat split; try assumption.
    unfold undelivered in U. apply negb_true_iff, U.
Qed.

(** A draw of [Math.random] always selects an element of a list that is
    not empty. *)
Lemma random_element_defined {A} (r : Q) (l : list A) :
  unit_interval r -> l <> [] -> exists e, random_element r l = Some e.
Proof.
  intros [R0 R1] N. unfold random_element.
  set (n := inject_Z (Z.of_nat (List.length l))).
  assert (Hn : 0 < n).
  { unfold n. destruct l; [contradiction|].
    change 0 with (inject_Z 0). rewrite <- Zlt_Qlt. cbn [List.length]. lia. }
  assert (L0 : (0 <= Qfloor (r * n))%Z).
  { change 0%Z with (Qfloor 0). apply Qfloor_resp_le.
    apply Qmult_le_0_compat; [exact R0|apply Qlt_le_weak, Hn]. }
  assert (L1 : (Qfloor (r * n) < Z.of_nat (List.length l))%Z).
  { rewrite Zlt_Qlt. eapply Qle_lt_trans; [apply Qfloor_le|].
    fold n. setoid_replace n with (1 * n) at 2 by ring.
    apply Qmult_lt_r; assumption. }
  destruct (Z.ltb_spec (Qfloor (r * n)) 0); [lia|].
  destruct (nth_error l (Z.to_nat (Qfloor (r * n)))) as [e|] eqn:E.
  - exists e. reflexivity.
  - apply nth_error_None in E. lia.
Qed.

Section MotionFacts.

Variable hypot : Q -> Q -> Q.

(** A frame keeps the position, in the state and in the ref, inside the
    map. *)
Lemma step_inside (timestamp rnd : Q) (uid : jsstring) (a a' : App) :
  step hypot timestamp rnd uid a = Some a' ->
  inside (santa (state a)) -> inside (santaRef (refs a)) ->
  inside (santa (state a')) /\ inside (santaRef (refs a')).
Proof.
  unfold step.
  destruct (active (compliance (rendered (assign_last timestamp a)))).
  { intros [= <-]. cbn. tauto. }
  destruct (truthy _) as [tid|].
  2:{ intros P. apply pickNextTarget_frame in P as (_ & S & SR & _).
    cbn in *. rewrite S, SR. tauto. }
  destruct (resolve _ _) as [target|].
  2:{ intros [= <-]. cbn. tauto. }
  destruct (Qltb _ _).
  - intros [= <-]. cbn. tauto.
  - intros [= <-] _ _. cbn. split; apply clamped_inside.
Qed.

End MotionFacts.

(* ================================================================= *)
(** ** What each callback leaves alone *)

Ltac frame :=
  repeat match goal with
         | |- context [if ?b then _ else _] => destruct b
         | |- context [match ?r with Resolved _ => _ | Rejected => _ end] => destruct r
         | |- context [match ?l with [] => _ | _ :: _ => _ end] => destruct l
         end;
  cbn; repeat split; reflexivity.

Lemma triggerCompliance_motion cancelled rnd uid a :
  same_motion a (triggerCompliance cancelled rnd uid a).
Proof. unfold same_motion, triggerCompliance. frame. Qed.

Lemma startDrafting_motion uid a : same_motion a (startDrafting uid a).
Proof. unfold same_motion, startDrafting. frame. Qed.

Lemma submitCase_motion uid a : same_motion a (submitCase uid a).
Proof. unfold same_motion, submitCase. frame. Qed.

Lemma submitCase_timeout_motion a : same_motion a (submitCase_timeout a).
Proof. unfold same_motion, submitCase_timeout. frame. Qed.

Lemma validateCase_request_motion a : same_motion a (fst (validateCase_request a)).
Proof. unfold same_motion, validateCase_request. frame. Qed.

Lemma validateCase_settle_motion r a : same_motion a (validateCase_settle r a).
Proof. unfold same_motion, validateCase_settle. frame. Qed.

Lemma sendChat_motion isSending message a :
  same_motion a (sendChat isSending message a).
Proof. unfold same_motion, sendChat. frame. Qed.

Lemma draft_effect_motion a : same_motion a (draft_effect a).
Proof. unfold same_motion, draft_effect. frame. Qed.

Section RunFacts.

Variable hypot : Q -> Q -> Q.

(** Every event but a frame and a render leaves the motion alone. *)
Lemma handle_motion (e : Event) (a a' : App) :
  handle hypot e a = Some a' ->
  (exists timestamp rnd uid, e = Frame timestamp rnd uid)
  \/ (exists now, e = Render now)
  \/ same_motion a a'.
Proof.
  destruct e; cbn [handle]; intros H;
    [ left; eauto | .. | right; left; eauto ];
    injection H as <-; right; right.
  - apply triggerCompliance_motion.
  - apply startDrafting_motion.
  - apply validateCase_request_motion.
  - apply validateCase_settle_motion.
  - apply submitCase_motion.
  - apply submitCase_timeout_motion.
  - apply sendChat_motion.
  - unfold same_motion. cbn. tauto.
  - apply draft_effect_motion.
Qed.

Lemma handle_inside (e : Event) (a a' : App) :
  handle hypot e a = Some a' ->
  inside (santa (state a)) /\ inside (santaRef (refs a)) ->
  inside (santa (state a')) /\ inside (santaRef (refs a')).
Proof.
  intros H [I1 I2].
  destruct (handle_motion e a a' H) as [(t & r & u & ->)|[(now & ->)|M]].
  - cbn in H. eapply step_inside; eassumption.
  - cbn in H. injection H as <-. cbn. tauto.
  - destruct M as (_ & S & _ & R). rewrite S, R. tauto.
Qed.

Lemma run_inside (events : list Event) (a a' : App) :
  run hypot events a = Some a' ->
  inside (santa (state a)) /\ inside (santaRef (refs a)) ->
  inside (santa (state a')) /\ inside (santaRef (refs a')).
Proof.
  revert a. induction events as [|e rest IH]; intros a; cbn [run].
  - intros [= <-]. tauto.
  - destruct (handle hypot e a) as [a1|] eqn:H; [|discriminate].
    intros R I. apply (IH a1 R). eapply handle_inside; eassumption.
Qed.

End RunFacts.

Section Totality.

Variable hypot : Q -> Q -> Q.

(** A frame whose draw is one of [Math.random] does not throw. *)
Lemma step_defined (timestamp rnd : Q) (uid : jsstring) (a : App) :
  unit_interval rnd -> exists a', step hypot timestamp rnd uid a = Some a'.
Proof.
  intros U. unfold step.
  destruct (active _); [eauto|].
  destruct (truthy _) as [tid|].
  - destruct (resolve _ _); [|eauto].
    destruct (Qltb _ _); eauto.
  - unfold pickNextTarget.
    destruct (filter undelivered (housesRef (refs (assign_last timestamp a))))
      as [|h rest] eqn:F; [eauto|].
    destruct (random_element_defined rnd (h :: rest) U) as [next ->];
      [discriminate|eauto].
Qed.

Lemma run_defined (events : list Event) (a : App) :
  Forall drawn_properly events -> exists a', run hypot events a = Some a'.
Proof.
  revert a. induction events as [|e rest IH]; intros a D; cbn [run].
  - eauto.
  - inversion D as [|? ? De Dr]; subst.
    assert (H : exists a1, handle hypot e a = Some a1).
    { destruct e; cbn [handle]; eauto. apply step_defined, De. }
    destruct H as [a1 ->]. apply IH, Dr.
Qed.

Lemma run_rendered_defined (events : list (Event * Q)) (a : App) :
  Forall (fun e => drawn_properly (fst e)) events ->
  exists a', run_rendered hypot events a = Some a'.
Proof.
  revert a. induction events as [|[e now] rest IH]; intros a D; cbn [run_rendered].
  - eauto.
  - inversion D as [|? ? De Dr]; subst. cbn in De.
    assert (H : exists a1, handle hypot e a = Some a1).
    { destruct e; cbn [handle]; eauto. apply step_defined, De. }
    destruct H as [a1 ->]. apply IH, Dr.
Qed.

End Totality.

(** C3.  From the start of the component, with the sleigh at (48, 30),
    whatever houses were placed and whatever events follow (frames with any
    timestamp and any draw, the timer, the handlers, the renders), the
    position a run ends in has both coordinates between 1 and 99, in the
    state and in the ref the frame loop reads; [hypot] is any function.
    A run whose frames draw as [Math.random] does, from 0 included to 1
    excluded, always ends in a state. *)
Theorem position_stays_inside (hypot : Q -> Q -> Q) (generated : list House)
    (mask : bool) (uid0 uid1 : jsstring) (now : Q) (events : list Event) :
  (forall a',
      run hypot events (started generated mask uid0 uid1 now) = Some a' ->
      inside (santa (state a')) /\ inside (santaRef (refs a')))
  /\ (Forall drawn_properly events ->
      exists a', run hypot events (started generated mask uid0 uid1 now) = Some a').
Proof.
  split.
  - intros a' R. apply (run_inside hypot events _ a' R).
    unfold inside; cbn. repeat split; discriminate.
  - apply run_defined.
Qed.

Lemma position_stays_inside_witness :
  match run hypot6 Town.takeoff Town.opening with
  | Some a' =>
      x (santa (state a')) == 482112 # 10000
      /\ y (santa (state a')) == 302816 # 10000
      /\ inside (santa (state a')) /\ inside (santaRef (refs a'))
  | None => False
  end.
Proof.
  destruct (position_stays_inside hypot6 Town.town true (lit "log-0")
              (lit "log-1") 0 Town.takeoff) as [Inside Defd].
  destruct Defd as [a0 R0].
  { unfold Town.takeoff.
    repeat (apply Forall_cons;
            [cbn; first [exact I | split; [discriminate|reflexivity]]|]).
    apply Forall_nil. }
  change (run hypot6 Town.takeoff Town.opening = Some a0) in R0.
  rewrite R0. split; [|split].
  - vm_compute in R0. injection R0 as <-. vm_compute. reflexivity.
  - vm_compute in R0. injection R0 as <-. vm_compute. reflexivity.
  - apply Inside, R0.
Defined.

(** C2, as stated, fails: the timer has set the ComplianceState active and
    React has not rendered yet; the frame that runs then still sees the
    inactive state of the last render in its closure and flies the sleigh
    from (48, 30) to (48.2112, 30.2816). *)
Lemma tick_moves_before_render : ~ suspended_while_active.
Proof.
  intros H.
  destruct (run hypot6 Town.alert_pending Town.opening) as [a|] eqn:R;
    [|vm_compute in R; discriminate R].
  destruct (step hypot6 32 0 (lit "log-4") a) as [a'|] eqn:S;
    [|vm_compute in R; injection R as <-; vm_compute in S; discriminate S].
  assert (Re : reached hypot6 a).
  { exists Town.town, true, (lit "log-0"), (lit "log-1"), 0, Town.alert_pending.
    exact R. }
  assert (A : active (compliance (state a)) = true)
    by (vm_compute in R; injection R as <-; reflexivity).
  destruct (H hypot6 a 32 0 (lit "log-4") a' Re A S) as ((X & _) & _).
  vm_compute in R. injection R as <-.
  vm_compute in S. injection S as <-.
  vm_compute in X. discriminate X.
Qed.

(** The frames of a sequence, one after the other, from a state whose
    closure holds an active ComplianceState. *)
Lemma frames_suspended (hypot : Q -> Q -> Q) (frames : list (Q * Q * jsstring))
    (a : App) :
  active (compliance (rendered a)) = true ->
  exists a',
    run hypot (map (fun f => Frame (fst (fst f)) (snd (fst f)) (snd f)) frames) a
    = Some a'
    /\ state a' = state a /\ refs a' = refs a /\ rendered a' = rendered a.
Proof.
  revert a. induction frames as [|[[timestamp rnd] uid] rest IH]; intros a A.
  - exists a. cbn. auto.
  - cbn [map run handle fst snd]. unfold step.
    cbn [rendered assign_last]. rewrite A.
    destruct (IH (assign_last timestamp a) A) as (a' & R & E1 & E2 & E3).
    exists a'. split; [exact R|]. rewrite E1, E2, E3. cbn. auto.
Qed.

(** C2, amended.  [step] tests the ComplianceState its closure holds, which
    is the one of the last render (the one that installed the frame loop).
    A frame that runs while that state is active changes nothing but the
    time stamp [last] of the loop: state (position, target, houses, log),
    refs (position, target, houses) and closure are the same after it, and
    no target is selected; so are they after any number of such frames.  A
    render hands the current state to the closure, so once an active state
    is rendered every frame is suspended until a later render. *)
Theorem step_suspended (hypot : Q -> Q -> Q) (timestamp rnd : Q)
    (uid : jsstring) (a : App) :
  active (compliance (rendered a)) = true ->
  (exists a',
     step hypot timestamp rnd uid a = Some a'
     /\ santa (state a') = santa (state a)
     /\ santaRef (refs a') = santaRef (refs a)
     /\ targetId (state a') = targetId (state a)
     /\ targetRef (refs a') = targetRef (refs a)
     /\ houses (state a') = houses (state a)
     /\ housesRef (refs a') = housesRef (refs a)
     /\ state a' = state a /\ refs a' = refs a /\ rendered a' = rendered a)
  /\ (forall frames,
        exists a',
          run hypot
            (map (fun f => Frame (fst (fst f)) (snd (fst f)) (snd f)) frames) a
          = Some a'
          /\ state a' = state a /\ refs a' = refs a
          /\ rendered a' = rendered a)
  /\ (forall now b,
        active (compliance (state b)) = true ->
        active (compliance (rendered (commit now b))) = true).
Proof.
  intros A. split; [|split].
  - exists (assign_last timestamp a).
    unfold step. cbn [rendered assign_last]. rewrite A.
    cbn. repeat split.
  - intros frames. apply frames_suspended, A.
  - intros now b B. exact B.
Qed.

Lemma step_suspended_witness :
  active (compliance (rendered Town.alerted)) = true
  /\ (exists a',
        step hypot6 5016 (1 # 3) (lit "log-9") Town.alerted = Some a'
        /\ santa (state a') = santa (state Town.alerted)
        /\ targetRef (refs a') = targetRef (refs Town.alerted)
        /\ houses (state a') = houses (state Town.alerted))
  /\ stage (compliance (state (click StartButton (lit "log-3") Town.alerted)))
     <> stage (compliance (rendered (click StartButton (lit "log-3") Town.alerted)))
  /\ (exists a',
        step hypot6 5516 (1 # 3) (lit "log-9")
          (click StartButton (lit "log-3") Town.alerted) = Some a'
        /\ state a' = state (click StartButton (lit "log-3") Town.alerted)).
Proof.
  assert (A : active (compliance (rendered Town.alerted)) = true) by reflexivity.
  assert (B : active (compliance
                (rendered (click StartButton (lit "log-3") Town.alerted))) = true)
    by reflexivity.
  split; [exact A|].
  destruct (step_suspended hypot6 5016 (1 # 3) (lit "log-9") Town.alerted A)
    as ((a' & S & H1 & _ & _ & H4 & H5 & _) & _).
  destruct (step_suspended hypot6 5516 (1 # 3) (lit "log-9")
              (click StartButton (lit "log-3") Town.alerted) B)
    as ((b' & S' & _ & _ & _ & _ & _ & _ & E & _) & _).
  split; [exists a'; repeat split; assumption|].
  split; [vm_compute; discriminate|].
  exists b'. split; assumption.
Defined.

(* ================================================================= *)
(** ** Deliveries *)

Section DeliveryFacts.

Variable hypot : Q -> Q -> Q.

(** A frame maps a function over the houses that keeps every id and every
    flag that is already set. *)
Lemma step_houses (timestamp rnd : Q) (uid : jsstring) (a a' : App) :
  step hypot timestamp rnd uid a = Some a' ->
  exists f : House -> House,
    houses (state a') = map f (houses (state a))
    /\ (forall house, id (f house) = id house)
    /\ (forall house, delivered house = true -> delivered (f house) = true).
Proof.
  unfold step.
  assert (I : forall l : list House,
             exists f : House -> House,
               l = map f l
               /\ (forall house, id (f house) = id house)
               /\ (forall house, delivered house = true -> delivered (f house) = true)).
  { intros l. exists (fun house => house). rewrite map_id. auto. }
  destruct (active (compliance (rendered (assign_last timestamp a)))).
  { intros [= <-]. cbn. apply I. }
  destruct (truthy _) as [tid|].
  2:{ intros P. apply pickNextTarget_frame in P as (H & _).
    rewrite H. cbn. apply I. }
  destruct (resolve _ _) as [target|].
  2:{ intros [= <-]. cbn. apply I. }
  destruct (Qltb _ _).
  - intros [= <-]. cbn. eexists. split; [reflexivity|].
    split; intros house; destruct (str_eqb (id house) (id target)); auto.
  - intros [= <-]. cbn. apply I.
Qed.

(** No event takes a delivery back. *)
Lemma handle_keeps_delivered (e : Event) (a a' : App) (i : nat) :
  handle hypot e a = Some a' ->
  delivered_at i a = true -> delivered_at i a' = true.
Proof.
  intros H. unfold delivered_at.
  destruct (handle_motion hypot e a a' H) as [(t & r & u & ->)|[(now & ->)|M]].
  - cbn in H. apply step_houses in H as (f & -> & _ & K).
    rewrite nth_error_map.
    destruct (nth_error (houses (state a)) i); cbn; [apply K|discriminate].
  - cbn in H. injection H as <-. cbn. auto.
  - destruct M as (-> & _). auto.
Qed.

Lemma flips_next (i : nat) (a a1 : App) (tl : list App) :
  flips i (a :: a1 :: tl)
  = ((if negb (delivered_at i a) && delivered_at i a1 then 1 else 0)
     + flips i (a1 :: tl))%nat.
Proof. reflexivity. Qed.

Lemma reverts_next (i : nat) (a a1 : App) (tl : list App) :
  reverts i (a :: a1 :: tl)
  = ((if delivered_at i a && negb (delivered_at i a1) then 1 else 0)
     + reverts i (a1 :: tl))%nat.
Proof. reflexivity. Qed.

Lemma trace_head (events : list Event) (a : App) :
  exists rest, trace hypot events a = a :: rest.
Proof. destruct events; cbn [trace]; eauto. Qed.

Lemma trace_delivered (events : list Event) (a : App) (i : nat) :
  delivered_at i a = true ->
  flips i (trace hypot events a) = 0%nat
  /\ reverts i (trace hypot events a) = 0%nat.
Proof.
  revert a. induction events as [|e rest IH]; intros a D.
  - cbn. auto.
  - cbn [trace]. destruct (handle hypot e a) as [a1|] eqn:H; [|cbn; auto].
    assert (D1 := handle_keeps_delivered e a a1 i H D).
    destruct (IH a1 D1) as [F R].
    destruct (trace_head rest a1) as [tl E]. rewrite E in *.
    rewrite flips_next, reverts_next, D, D1, F, R. auto.
Qed.

Lemma trace_flips (events : list Event) (a : App) (i : nat) :
  (flips i (trace hypot events a) <= 1)%nat
  /\ reverts i (trace hypot events a) = 0%nat.
Proof.
  revert a. induction events as [|e rest IH]; intros a.
  - cbn. auto.
  - destruct (delivered_at i a) eqn:D.
    { destruct (trace_delivered (e :: rest) a i D) as [-> ->]. auto. }
    cbn [trace]. destruct (handle hypot e a) as [a1|] eqn:H; [|cbn; auto].
    destruct (delivered_at i a1) eqn:D1.
    + destruct (trace_delivered rest a1 i D1) as [F R].
      destruct (trace_head rest a1) as [tl E]. rewrite E in *.
      rewrite flips_next, reverts_next, D, D1, F, R. auto.
    + destruct (IH a1) as [F R].
      destruct (trace_head rest a1) as [tl E]. rewrite E in *.
      rewrite flips_next, reverts_next, D, D1, R. cbn. auto.
Qed.

End DeliveryFacts.

(** C8.  Along the states of any sequence of events from any state, the
    delivered flag of each house (the houses keep their places in the list)
    never goes back from true to false and goes from false to true at most
    once. *)
Theorem delivered_at_most_once (hypot : Q -> Q -> Q) (events : list Event)
    (a : App) (i : nat) :
  reverts i (trace hypot events a) = 0%nat
  /\ (flips i (trace hypot events a) <= 1)%nat.
Proof.
  destruct (trace_flips hypot events a i). auto.
Qed.

Example house2_delivered_once :
  flips 1 (trace hypot6 Town.first_delivery Town.opening) = 1%nat
  /\ flips 0 (trace hypot6 Town.first_delivery Town.opening) = 0%nat.
Proof. vm_compute. split; reflexivity. Qed.

(* ================================================================= *)
(** ** The target *)

Lemma str_eqb_eq (s t : jsstring) : str_eqb s t = true <-> s = t.
Proof.
  revert t. induction s as [|c s IH]; intros [|d t]; cbn;
    try (split; [discriminate|discriminate]); [tauto|].
  rewrite andb_true_iff, N.eqb_eq, IH.
  split; [intros [-> ->]; reflexivity|intros [= -> ->]; auto].
Qed.

Lemma commit_published (now : Q) (a : App) : published (commit now a).
Proof. split; reflexivity. Qed.

(** A target that resolves is the id of a house that is not delivered. *)
Lemma resolve_some (tid : jsstring) (hs : list House) (target : House) :
  resolve tid hs = Some target ->
  In target hs /\ id target = tid /\ delivered target = false.
Proof.
  unfold resolve. intros F. apply find_some in F as [I P].
  apply andb_true_iff in P as [E D].
  apply str_eqb_eq in E. apply negb_true_iff in D. auto.
Qed.

(** A target whose houses are all delivered, or that names no house, does
    not resolve. *)
Lemma resolve_none (tid : jsstring) (hs : list House) :
  (forall house, In house hs -> id house = tid -> delivered house = true) ->
  resolve tid hs = None.
Proof.
  intros H. destruct (resolve tid hs) as [target|] eqn:R; [|reflexivity].
  apply resolve_some in R as (I & E & D).
  rewrite (H target I E) in D. discriminate.
Qed.

Section TargetFacts.

Variable hypot : Q -> Q -> Q.

(** When a frame finds its target stale, it clears the reference. *)
Lemma step_clears_stale (timestamp rnd : Q) (uid tid : jsstring) (a : App) :
  active (compliance (rendered a)) = false ->
  truthy (targetRef (refs a)) = Some tid ->
  (forall house, In house (housesRef (refs a)) ->
                 id house = tid -> delivered house = true) ->
  exists a', step hypot timestamp rnd uid a = Some a'
             /\ targetRef (refs a') = None /\ targetId (state a') = None.
Proof.
  intros A T S. unfold step. cbn [rendered refs assign_last]. rewrite A, T.
  rewrite (resolve_none tid _ S). eexists. split; [reflexivity|]. cbn. auto.
Qed.

(** A frame that changes the houses, that is, one that delivers, clears
    the reference. *)
Lemma step_delivery_clears (timestamp rnd : Q) (uid : jsstring) (a a' : App) :
  step hypot timestamp rnd uid a = Some a' ->
  houses (state a') <> houses (state a) ->
  targetRef (refs a') = None /\ targetId (state a') = None.
Proof.
  unfold step.
  destruct (active (compliance (rendered (assign_last timestamp a)))).
  { intros [= <-]. cbn. congruence. }
  destruct (truthy _) as [tid|].
  2:{ intros P. apply pickNextTarget_frame in P as (H & _). cbn in H. congruence. }
  destruct (resolve _ _) as [target|].
  2:{ intros [= <-]. cbn. auto. }
  destruct (Qltb _ _).
  - intros [= <-]. cbn. auto.
  - intros [= <-]. cbn. congruence.
Qed.

(** A frame moves the sleigh only towards a house of [housesRef] that is
    not delivered. *)
Lemma step_moves_to_undelivered (timestamp rnd : Q) (uid : jsstring)
    (a a' : App) :
  step hypot timestamp rnd uid a = Some a' ->
  santaRef (refs a') <> santaRef (refs a) ->
  pursues_undelivered (truthy (targetRef (refs a))) (housesRef (refs a)).
Proof.
  unfold step.
  destruct (active (compliance (rendered (assign_last timestamp a)))).
  { intros [= <-]. cbn. congruence. }
  cbn [refs assign_last].
  destruct (truthy (targetRef (refs a))) as [tid|].
  2:{ intros P. apply pickNextTarget_frame in P as (_ & _ & S & _).
      cbn in S. congruence. }
  destruct (resolve tid (housesRef (refs a))) as [target|] eqn:R.
  2:{ intros [= <-]. cbn. congruence. }
  intros _ _ t [= <-]. apply resolve_some in R. eauto.
Qed.

(** After a frame on a published state, the reference is again the id of a
    house that is not delivered, if it was before. *)
Lemma step_target (timestamp rnd : Q) (uid : jsstring) (a a' : App) :
  published a ->
  pursues_undelivered (targetId (state a)) (houses (state a)) ->
  step hypot timestamp rnd uid a = Some a' ->
  pursues_undelivered (targetRef (refs a')) (houses (state a'))
  /\ targetId (state a') = targetRef (refs a').
Proof.
  intros [P1 P2] J.
  assert (HR : housesRef (refs a) = houses (state a)) by (rewrite P2; reflexivity).
  assert (TR : targetRef (refs a) = targetId (state a)) by (rewrite P2; reflexivity).
  unfold step.
  destruct (active (compliance (rendered (assign_last timestamp a)))).
  { intros [= <-]. cbn. rewrite TR. auto. }
  destruct (truthy _) as [tid|].
  2:{ intros P. assert (S := pickNextTarget_selects _ _ _ _ P).
      apply pickNextTarget_frame in P as (H & _ & _ & _ & T & _).
      cbn in S, H. rewrite H, <- HR. auto. }
  destruct (resolve _ _) as [target|].
  2:{ intros [= <-]. cbn. split; [intros t; discriminate|reflexivity]. }
  destruct (Qltb _ _).
  - intros [= <-]. cbn. split; [intros t; discriminate|reflexivity].
  - intros [= <-]. cbn. rewrite TR. auto.
Qed.

(** The same for every event. *)
Lemma handle_target (e : Event) (a a' : App) :
  published a ->
  pursues_undelivered (targetId (state a)) (houses (state a)) ->
  handle hypot e a = Some a' ->
  pursues_undelivered (targetRef (refs a')) (houses (state a'))
  /\ targetId (state a') = targetRef (refs a').
Proof.
  intros P J H.
  assert (TR : targetRef (refs a) = targetId (state a))
    by (destruct P as [_ ->]; reflexivity).
  destruct (handle_motion hypot e a a' H) as [(t & r & u & ->)|[(now & ->)|M]].
  - cbn in H. eapply step_target; eassumption.
  - cbn in H. injection H as <-. cbn. auto.
  - destruct M as (Hh & _ & Ht & Hr). rewrite Hh, Ht, Hr, TR. auto.
Qed.

Lemma run_rendered_target (events : list (Event * Q)) (a a' : App) :
  published a ->
  pursues_undelivered (targetId (state a)) (houses (state a)) ->
  run_rendered hypot events a = Some a' ->
  published a'
  /\ pursues_undelivered (targetId (state a')) (houses (state a')).
Proof.
  revert a. induction events as [|[e now] rest IH]; intros a P J; cbn [run_rendered].
  - intros [= <-]. auto.
  - destruct (handle hypot e a) as [a1|] eqn:H; [|discriminate].
    destruct (handle_target e a a1 P J H) as [J1 T1].
    apply IH; [apply commit_published|]. cbn. rewrite T1. exact J1.
Qed.

End TargetFacts.

(** C7, as stated, fails: [pickNextTarget] chooses among the houses of
    [housesRef], which only the effect of a render refreshes.  In the town
    of two houses a frame delivers at house 2 and, before React renders, the
    next frame finds house 2 still undelivered in [housesRef] and selects it
    again: target reference and target id are house-2, whose delivered flag
    is true, and they still are after the render that follows. *)
Lemma delivered_house_selected_again : ~ target_always_undelivered.
Proof.
  intros H.
  destruct (run hypot6 Town.hasty_frames Town.opening) as [a|] eqn:R;
    [|vm_compute in R; discriminate R].
  assert (Re : reached hypot6 a).
  { exists Town.town, true, (lit "log-0"), (lit "log-1"), 0, Town.hasty_frames.
    exact R. }
  specialize (H hypot6 a Re).
  vm_compute in R. injection R as <-.
  destruct (H (lit "house-2") eq_refl) as (house & I & E & D).
  cbn in I. destruct I as [<-|[<-|[]]].
  - vm_compute in E. discriminate E.
  - vm_compute in D. discriminate D.
Qed.

(** C7, amended.  The motion controller selects and pursues by the houses
    of [housesRef], the collection as the last render published it.  For
    any state: what [pickNextTarget] selects is a house of [housesRef] that
    is not delivered there, a frame that delivers clears the reference, a
    frame whose target resolves to no undelivered house of [housesRef]
    clears it, and a frame moves the sleigh only towards a house that is
    not delivered in [housesRef].  So, React rendering after each callback,
    in every state a run from the start reaches, and in the state any next
    callback leaves, the target reference, when it is not null, is the id
    of a house whose delivered flag is false; state and ref agree on the
    target. *)
Theorem target_never_delivered (hypot : Q -> Q -> Q) :
  (forall generated mask uid0 uid1 now events a',
      run_rendered hypot events (started generated mask uid0 uid1 now) = Some a' ->
      pursues_undelivered (targetRef (refs a')) (houses (state a'))
      /\ targetId (state a') = targetRef (refs a')
      /\ forall e a'',
           handle hypot e a' = Some a'' ->
           pursues_undelivered (targetRef (refs a'')) (houses (state a''))
           /\ targetId (state a'') = targetRef (refs a''))
  /\ (forall rnd uid a a',
        pickNextTarget rnd uid a = Some a' ->
        pursues_undelivered (targetRef (refs a')) (housesRef (refs a)))
  /\ (forall timestamp rnd uid a a',
        step hypot timestamp rnd uid a = Some a' ->
        houses (state a') <> houses (state a) ->
        targetRef (refs a') = None /\ targetId (state a') = None)
  /\ (forall timestamp rnd uid tid a,
        active (compliance (rendered a)) = false ->
        truthy (targetRef (refs a)) = Some tid ->
        (forall house, In house (housesRef (refs a)) ->
                       id house = tid -> delivered house = true) ->
        exists a', step hypot timestamp rnd uid a = Some a'
                   /\ targetRef (refs a') = None /\ targetId (state a') = None)
  /\ (forall timestamp rnd uid a a',
        step hypot timestamp rnd uid a = Some a' ->
        santaRef (refs a') <> santaRef (refs a) ->
        pursues_undelivered (truthy (targetRef (refs a))) (housesRef (refs a))).
Proof.
  split; [|split; [|split; [|split]]].
  - intros generated mask uid0 uid1 now events a' R.
    destruct (run_rendered_target hypot events
                (started generated mask uid0 uid1 now) a') as [P J].
    + apply commit_published.
    + intros tid. cbn. discriminate.
    + exact R.
    + assert (TR : targetRef (refs a') = targetId (state a'))
        by (destruct P as [_ ->]; reflexivity).
      rewrite TR. split; [exact J|]. split; [reflexivity|].
      intros e a'' H. eapply handle_target; eassumption.
  - apply pickNextTarget_selects.
  - apply step_delivery_clears.
  - intros. eapply step_clears_stale; eassumption.
  - apply step_moves_to_undelivered.
Qed.

Lemma target_never_delivered_witness :
  match run_rendered hypot6 Town.delivery_frames Town.opening with
  | Some a' =>
      targetRef (refs a') = Some (lit "house-1")
      /\ delivered_at 1 a' = true
      /\ pursues_undelivered (targetRef (refs a')) (houses (state a'))
  | None => False
  end
  /\ exists a', step hypot6 16 0 (lit "log-2") Town.stale = Some a'
                /\ targetRef (refs a') = None.
Proof.
  destruct (target_never_delivered hypot6) as (Run & _ & _ & Stale & _).
  split.
  - destruct (run_rendered hypot6 Town.delivery_frames Town.opening)
      as [a'|] eqn:R.
    + destruct (Run Town.town true (lit "log-0") (lit "log-1") 0
                  Town.delivery_frames a' R) as (J & _ & _).
      vm_compute in R. injection R as <-.
      split; [reflexivity|]. split; [reflexivity|]. exact J.
    + vm_compute in R. discriminate R.
  - destruct (Stale 16 0 (lit "log-2") (lit "house-9") Town.stale)
      as (a' & S & T & _).
    + reflexivity.
    + reflexivity.
    + intros house I E. cbn in I.
      destruct I as [<-|[<-|[]]]; vm_compute in E; discriminate E.
    + exists a'. split; assumption.
Defined.

(* ================================================================= *)
(** ** The interrupt scheduler *)

(** C4, as stated, fails: the timer callback reads [remainingRef], which
    only the effect of a render refreshes.  In the town of one house the
    frame loop delivers there; the timer firing before React renders still
    finds 1 in [remainingRef] and starts a compliance event, with no house
    left to deliver to. *)
Lemma alert_with_nothing_left : ~ never_activated_unduly.
Proof.
  intros H.
  destruct (run hypot6 Town.last_delivery Town.hamlet) as [a|] eqn:R;
    [|vm_compute in R; discriminate R].
  assert (Re : reached hypot6 a).
  { exists [Town.house2], true, (lit "log-0"), (lit "log-1"), 0,
           Town.last_delivery.
    exact R. }
  assert (Z0 : remainingDeliveries (state a) = 0%nat)
    by (vm_compute in R; injection R as <-; reflexivity).
  destruct (H hypot6 a false (1 # 2) (lit "log-4") Re (or_intror Z0))
    as (C & _).
  vm_compute in R. injection R as <-.
  vm_compute in C. discriminate C.
Qed.

(** C4, amended.  The timer callback decides by the refs, which hold the
    ComplianceState and the number of houses left as the last render
    published them.  It starts a compliance event exactly when
    [complianceRef] is not active and [remainingRef] is positive (and the
    effect was not cleaned up): the state becomes active, at stage alert,
    with the agency drawn from the catalogue, the transcript becomes the
    single incident message and the draft the empty one.  In every other
    case the callback changes nothing at all.  On a published state the
    refs are the ComplianceState and the count of undelivered houses of the
    state, so that no event starts while one is active or when no house is
    left.  A draw of [Math.random] always finds an agency in the
    catalogue. *)
Theorem triggerCompliance_guard (cancelled : bool) (rnd : Q) (uid : jsstring)
    (a : App) :
  (cancelled = false ->
   active (complianceRef (refs a)) = false ->
   (0 < remainingRef (refs a))%nat ->
   compliance (state (triggerCompliance cancelled rnd uid a))
   = {| active := true; agency := random_element rnd AGENCIES; stage := alert |}
   /\ chatMessages (state (triggerCompliance cancelled rnd uid a))
      = [incident (random_element rnd AGENCIES)]
   /\ draftSections (state (triggerCompliance cancelled rnd uid a)) = emptyDraft)
  /\ (cancelled = true
      \/ active (complianceRef (refs a)) = true
      \/ remainingRef (refs a) = 0%nat ->
      triggerCompliance cancelled rnd uid a = a)
  /\ (published a ->
      complianceRef (refs a) = compliance (state a)
      /\ remainingRef (refs a) = remainingDeliveries (state a)
      /\ (active (compliance (state a)) = true
          \/ remainingDeliveries (state a) = 0%nat ->
          triggerCompliance cancelled rnd uid a = a))
  /\ (unit_interval rnd ->
      exists name, random_element rnd AGENCIES = Some name /\ In name AGENCIES).
Proof.
  assert (K : cancelled = true
              \/ active (complianceRef (refs a)) = true
              \/ remainingRef (refs a) = 0%nat ->
              triggerCompliance cancelled rnd uid a = a).
  { unfold triggerCompliance. intros [->|[->| ->]]; [reflexivity| |].
    - destruct cancelled; reflexivity.
    - destruct cancelled; [reflexivity|]. rewrite andb_false_r. reflexivity. }
  split; [|split; [exact K|split]].
  - unfold triggerCompliance. intros -> -> L. apply Nat.ltb_lt in L.
    rewrite L. cbn. auto.
  - intros [_ P].
    assert (C : complianceRef (refs a) = compliance (state a))
      by (rewrite P; reflexivity).
    assert (R : remainingRef (refs a) = remainingDeliveries (state a))
      by (rewrite P; reflexivity).
    split; [exact C|]. split; [exact R|].
    intros [A|Z0]; apply K; right; [left|right]; congruence.
  - intros U. destruct (random_element_defined rnd AGENCIES U) as [name E].
    + discriminate.
    + exists name. split; [exact E|]. eapply random_element_In, E.
Qed.

Lemma triggerCompliance_guard_witness :
  compliance (state (triggerCompliance false (1 # 2) (lit "log-2") Town.opening))
  = {| active := true;
       agency := Some (lit "Deutsche Flugsicherung (DFS) - Germany");
       stage := alert |}
  /\ triggerCompliance false (1 # 2) (lit "log-9") Town.alerted = Town.alerted
  /\ match run hypot6 Town.last_delivery Town.hamlet with
     | Some a =>
         remainingDeliveries (state a) = 0%nat
         /\ remainingRef (refs a) = 1%nat
         /\ stage (compliance
                     (state (triggerCompliance false (1 # 2) (lit "log-4") a)))
            = alert
     | None => False
     end.
Proof.
  split; [|split].
  - destruct (triggerCompliance_guard false (1 # 2) (lit "log-2") Town.opening)
      as ((C & _) & _).
    + reflexivity.
    + reflexivity.
    + vm_compute. apply le_S, le_n.
    + rewrite C. reflexivity.
  - destruct (triggerCompliance_guard false (1 # 2) (lit "log-9") Town.alerted)
      as (_ & _ & P & _).
    destruct P as (_ & _ & K); [split; reflexivity|].
    apply K. left. reflexivity.
  - destruct (run hypot6 Town.last_delivery Town.hamlet) as [a|] eqn:R;
      [|vm_compute in R; discriminate R].
    destruct (triggerCompliance_guard false (1 # 2) (lit "log-4") a)
      as ((C & _) & _).
    + reflexivity.
    + vm_compute in R. injection R as <-. reflexivity.
    + vm_compute in R. injection R as <-. vm_compute. apply le_n.
    + rewrite C. vm_compute in R. injection R as <-.
      split; [reflexivity|]. split; reflexivity.
Defined.

Lemma remaining_positive (s : ReactState) :
  (0 < remainingDeliveries s)%nat
  <-> exists house, In house (houses s) /\ delivered house = false.
Proof.
  unfold remainingDeliveries. split.
  - destruct (filter undelivered (houses s)) as [|house rest] eqn:F;
      cbn; [lia|]. intros _.
    assert (I : In house (filter undelivered (houses s)))
      by (rewrite F; left; reflexivity).
    apply filter_In in I as [I U]. exists house. split; [exact I|].
    apply negb_true_iff, U.
  - intros (house & I & D).
    assert (I' : In house (filter undelivered (houses s))).
    { apply filter_In. split; [exact I|]. unfold undelivered. rewrite D.
      reflexivity. }
    destruct (filter undelivered (houses s)); [contradiction|cbn; lia].
Qed.

(* ================================================================= *)
(** ** The compliance session *)

(** C1, as stated, fails: [submitCase] called at stage alert moves the
    stage to submitted. *)
Lemma submitCase_not_rejected_in_alert : ~ submit_rejected_in_alert.
Proof.
  intros H. specialize (H (lit "log-3") Town.alerted eq_refl).
  vm_compute in H. discriminate H.
Qed.

(** The controls the modal offers, stage by stage. *)
Lemma clickable_spec (c : Control) (a : App) :
  clickable c a = true <->
  active (compliance (rendered a)) = true
  /\ ((c = StartButton /\ stage (compliance (rendered a)) = alert)
      \/ (c = ValidateButton /\ stage (compliance (rendered a)) = drafting
          /\ isValidating (rendered a) = false)
      \/ (c = SubmitButton /\ stage (compliance (rendered a)) = ready)).
Proof.
  unfold clickable, screen, ComplianceModal.
  destruct (active (compliance (rendered a)));
    destruct (stage (compliance (rendered a)));
    destruct (isValidating (rendered a)); destruct c; cbn;
    intuition congruence.
Qed.

(** C1, amended.  [submitCase] has no guard on the stage: called at any
    stage, alert included, it sets the stage to submitted and keeps the
    active flag and the agency; [startDrafting] has none either.  What rejects the actions that are not valid
    for the stage is the modal: it offers the start control at stage alert
    only, the validate control at stage drafting only, and an enabled submit
    control at stage ready only, and none when no event is active; a click
    on a control that is not offered changes nothing.  So a submit click at
    stage alert leaves the whole component, its ComplianceState included,
    as it was. *)
Theorem submit_gated_by_modal (c : Control) (uid : jsstring) (a : App) :
  compliance (state (submitCase uid a))
  = {| active := active (compliance (state a));
       agency := agency (compliance (state a));
       stage := submitted |}
  /\ stage (compliance (state (startDrafting uid a))) = drafting
  /\ (stage (compliance (rendered a)) = alert -> click SubmitButton uid a = a)
  /\ (click c uid a <> a ->
      active (compliance (rendered a)) = true
      /\ ((c = StartButton /\ stage (compliance (rendered a)) = alert)
          \/ (c = ValidateButton /\ stage (compliance (rendered a)) = drafting
              /\ isValidating (rendered a) = false)
          \/ (c = SubmitButton /\ stage (compliance (rendered a)) = ready))).
Proof.
  split; [reflexivity|]. split; [reflexivity|]. split.
  - intros S. unfold click.
    destruct (clickable SubmitButton a) eqn:K; [|reflexivity].
    apply clickable_spec in K as (_ & [(D & _)|[(D & _)|(_ & R)]]);
      congruence.
  - intros N. apply clickable_spec. unfold click in N.
    destruct (clickable c a); [reflexivity|congruence].
Qed.

Lemma submit_gated_by_modal_witness :
  stage (compliance (rendered Town.alerted)) = alert
  /\ click SubmitButton (lit "log-3") Town.alerted = Town.alerted
  /\ stage (compliance (state (submitCase (lit "log-3") Town.alerted))) = submitted
  /\ click StartButton (lit "log-3") Town.alerted <> Town.alerted.
Proof.
  destruct (submit_gated_by_modal StartButton (lit "log-3") Town.alerted)
    as (S & _ & G & _).
  split; [reflexivity|]. split; [apply G; reflexivity|].
  split; [rewrite S; reflexivity|].
  vm_compute. discriminate.
Defined.

(** How the request of [validateCase] settles, in one of two ways.
    Rejected, it appends the assistant message "Validation failed. Please
    retry." to the transcript, leaves the ComplianceState as it is, so that
    a stage drafting stays drafting, and clears [isValidating]: once
    rendered, [validateCase] passes its guard again.  Resolved, it appends
    the body (or "Validation complete." for an empty body) as an assistant
    message and sets the stage to ready; the body the validation route
    answers with is appended as it is. *)
Lemma validateCase_settles (r : Settled) (a : App) :
  (r = Rejected ->
   compliance (state (validateCase_settle r a)) = compliance (state a)
   /\ chatMessages (state (validateCase_settle r a))
      = chatMessages (state a)
        ++ [ {| role := assistant;
                content := lit "Validation failed. Please retry." |} ]
   /\ isValidating (state (validateCase_settle r a)) = false
   /\ forall now,
        snd (validateCase_request (commit now (validateCase_settle r a))) = true)
  /\ (forall body, r = Resolved body ->
      compliance (state (validateCase_settle r a))
      = {| active := active (compliance (state a));
           agency := agency (compliance (state a));
           stage := ready |}
      /\ chatMessages (state (validateCase_settle r a))
         = chatMessages (state a)
           ++ [ {| role := assistant;
                   content := if nonempty body then body
                              else lit "Validation complete." |} ]
      /\ isValidating (state (validateCase_settle r a)) = false)
  /\ (stage (compliance (state a)) = drafting ->
      (stage (compliance (state (validateCase_settle r a))) = ready
       <-> exists body, r = Resolved body)
      /\ (r = Rejected ->
          stage (compliance (state (validateCase_settle r a))) = drafting
          /\ (active (compliance (state a)) = true ->
              forall now,
                clickable ValidateButton (commit now (validateCase_settle r a))
                = true)))
  /\ (r = Resolved validate_POST ->
      chatMessages (state (validateCase_settle r a))
      = chatMessages (state a)
        ++ [ {| role := assistant; content := validate_POST |} ]).
Proof.
  split; [|split; [|split]].
  - intros ->. cbn. repeat split.
    intros now. unfold validateCase_request. cbn.
    rewrite length_app. cbn.
    replace (List.length (chatMessages (state a)) + 1 =? 0)%nat with false;
      [reflexivity|].
    symmetry. apply Nat.eqb_neq. lia.
  - intros body ->. cbn. destruct (compliance (state a)). cbn. auto.
  - intros D. split; [split|].
    + destruct r as [body|]; [eauto|]. cbn. rewrite D. discriminate.
    + intros [body ->]. reflexivity.
    + intros ->. split; [cbn; exact D|].
      intros A now. apply clickable_spec. cbn. rewrite A, D.
      split; [reflexivity|]. right. left. auto.
  - intros ->. reflexivity.
Qed.

Lemma validateCase_settles_in_drafting :
  stage (compliance (state Town.in_drafting)) = drafting
  /\ snd (validateCase_request Town.in_drafting) = true
  /\ stage (compliance (state (validateCase_settle Rejected
                                 (fst (validateCase_request Town.in_drafting)))))
     = drafting
  /\ snd (validateCase_request
            (commit 9000 (validateCase_settle Rejected
                            (fst (validateCase_request Town.in_drafting)))))
     = true
  /\ clickable ValidateButton
       (commit 9000 (validateCase_settle Rejected
                       (fst (validateCase_request Town.in_drafting))))
     = true
  /\ stage (compliance (state (validateCase_settle (Resolved validate_POST)
                                 (fst (validateCase_request Town.in_drafting)))))
     = ready.
Proof.
  destruct (validateCase_settles Rejected
              (fst (validateCase_request Town.in_drafting)))
    as ((_ & _ & _ & Again) & _ & Stay & _); [reflexivity|].
  destruct (Stay eq_refl) as (_ & Stay').
  destruct (Stay' eq_refl) as (Drafting & Offered).
  destruct (validateCase_settles (Resolved validate_POST)
              (fst (validateCase_request Town.in_drafting)))
    as (_ & _ & Advance & _).
  split; [reflexivity|]. split; [reflexivity|].
  split; [exact Drafting|].
  split; [apply Again|].
  split; [apply Offered; reflexivity|].
  apply Advance; [reflexivity|]. exists validate_POST. reflexivity.
Defined.

(** C9, the failing input.  When the request rejects (no response
    arrives), the [catch] branch appends the failure message and the stage
    stays as it is.  A response that reports a failure is not told apart
    from a success: [validateCase] reads neither [res.ok] nor
    the status, so for every response, the status 500 included, the body
    is appended as an assistant message and the stage becomes ready.  In
    the town, validation asked at stage drafting and answered by the
    status 500 with the body "Internal Server Error" ends at stage
    ready. *)
Theorem validation_advances_on_error_response :
  (forall (res : Response) (a : App),
      stage (compliance (state (validateCase_settle (answered res) a))) = ready
      /\ chatMessages (state (validateCase_settle (answered res) a))
         = chatMessages (state a)
           ++ [ {| role := assistant;
                   content := if nonempty (response_text res)
                              then response_text res
                              else lit "Validation complete." |} ])
  /\ (forall a : App,
        stage (compliance (state (validateCase_settle Rejected a)))
        = stage (compliance (state a)))
  /\ ok server_error = false
  /\ stage (compliance (state (fst (validateCase_request Town.in_drafting))))
     = drafting
  /\ snd (validateCase_request Town.in_drafting) = true
  /\ stage (compliance
              (state (validateCase_settle (answered server_error)
                        (fst (validateCase_request Town.in_drafting)))))
     = ready
  /\ chatMessages
       (state (validateCase_settle (answered server_error)
                 (fst (validateCase_request Town.in_drafting))))
     = chatMessages (state Town.in_drafting)
       ++ [ {| role := assistant; content := lit "Internal Server Error" |} ].
Proof.
  split; [intros res a; split; reflexivity|].
  split; [intros a; reflexivity|].
  vm_compute. repeat split.
Qed.

(* ================================================================= *)
(** * Further properties of the code *)

Import Generator.

(* ================================================================= *)
(** ** The waypoint generator *)

Lemma ToUint32_range (z : Z) : (0 <= ToUint32 z < 4294967296)%Z.
Proof. unfold ToUint32. apply Z.mod_pos_bound. reflexivity. Qed.

Lemma ToInt32_range (z : Z) : (-2147483648 <= ToInt32 z < 2147483648)%Z.
Proof.
  unfold ToInt32. pose proof (ToUint32_range z) as R.
  destruct (Z.ltb_spec (ToUint32 z) 2147483648); lia.
Qed.

Lemma bor_0 (z : Z) : bor z 0 = ToInt32 z.
Proof. unfold bor. change (ToInt32 0) with 0%Z. apply Z.lor_0_r. Qed.

Lemma mulberry32_draw (state : Z) : unit_interval (fst (mulberry32 state)).
Proof.
  unfold mulberry32. cbn [fst].
  set (u := ushr _ 0).
  assert (R : (0 <= u < 4294967296)%Z).
  { unfold u, ushr. rewrite Z.shiftr_0_r. apply ToUint32_range. }
  split.
  - apply Qle_shift_div_l; [reflexivity|].
    rewrite Qmult_0_l. change 0 with (inject_Z 0). rewrite <- Zle_Qle. lia.
  - apply Qlt_shift_div_r; [reflexivity|].
    rewrite Qmult_1_l. change 4294967296 with (inject_Z 4294967296).
    rewrite <- Zlt_Qlt. lia.
Qed.

Lemma draws_unit_interval (n : nat) (state : Z) :
  Forall unit_interval (draws n state).
Proof.
  revert state. induction n as [|n IH]; intros state; cbn [draws];
    constructor; [apply mulberry32_draw|apply IH].
Qed.

(** X1.  Whatever its state, [mulberry32] returns a number from 0, included,
    to 1, excluded, and leaves a 32-bit integer as its state; so does every
    later call. *)
Theorem mulberry32_unit_interval (state : Z) (n : nat) :
  unit_interval (fst (mulberry32 state))
  /\ (-2147483648 <= snd (mulberry32 state) < 2147483648)%Z
  /\ Forall unit_interval (draws n state).
Proof.
  split; [apply mulberry32_draw|]. split.
  - unfold mulberry32. cbn [snd]. rewrite (bor_0 (_ + _)). apply ToInt32_range.
  - apply draws_unit_interval.
Qed.

Lemma generated_coordinate (r : Q) :
  unit_interval r -> 3 <= 3 + r * 94 /\ 3 + r * 94 < 97.
Proof.
  intros [R0 R1]. split.
  - setoid_replace 3 with (3 + 0 * 94) at 1 by ring.
    apply Qplus_le_r. apply Qmult_le_compat_r; [exact R0|discriminate].
  - setoid_replace 97 with (3 + 1 * 94) by ring.
    apply Qplus_lt_r. apply Qmult_lt_compat_r; [reflexivity|exact R1].
Qed.

Lemma well_placed_nil : well_placed [].
Proof. intros [|i] house H; discriminate H. Qed.

Lemma well_placed_push (houses : list House) (r1 r2 : Q) :
  unit_interval r1 -> unit_interval r2 ->
  well_placed houses ->
  well_placed (houses ++ [new_house houses (3 + r1 * 94) (3 + r2 * 94)]).
Proof.
  intros U1 U2 W i house H.
  destruct (Nat.lt_ge_cases i (List.length houses)) as [L|L].
  - rewrite nth_error_app1 in H by exact L. apply W, H.
  - rewrite nth_error_app2 in H by exact L.
    destruct (i - List.length houses)%nat as [|k] eqn:E; cbn in H.
    2:{ destruct k; discriminate H. }
    assert (i = List.length houses) by lia. subst i.
    injection H as <-. unfold numbered, new_house. cbn.
    destruct (generated_coordinate _ U1), (generated_coordinate _ U2).
    repeat split; assumption.
Qed.

(** The first loop keeps the houses it got, adds houses on land only, and
    never goes beyond [count]. *)
Lemma place_spec (mask : option MapMask) (count budget : nat)
    (houses : list House) (st : Z) :
  well_placed houses ->
  (List.length houses <= count)%nat ->
  well_placed (fst (place mask count budget houses st))
  /\ (List.length (fst (place mask count budget houses st)) <= count)%nat
  /\ exists added,
       fst (place mask count budget houses st) = houses ++ added
       /\ Forall (fun house => on_land mask house = true) added.
Proof.
  revert houses st. induction budget as [|budget IH]; intros houses st W L.
  - cbn. split; [exact W|]. split; [exact L|].
    exists []. rewrite app_nil_r. auto.
  - cbn [place]. destruct (Nat.ltb_spec (List.length houses) count) as [Lt|Ge].
    2:{ cbn. split; [exact W|]. split; [exact L|].
        exists []. rewrite app_nil_r. auto. }
    pose proof (mulberry32_draw st) as U1.
    destruct (mulberry32 st) as [r1 st1]. cbn [fst] in U1.
    pose proof (mulberry32_draw st1) as U2.
    destruct (mulberry32 st1) as [r2 st2]. cbn [fst] in U2.
    destruct (isLand mask (3 + r1 * 94) (3 + r2 * 94)) eqn:Land; cbn [negb].
    + destruct (IH (houses ++ [new_house houses (3 + r1 * 94) (3 + r2 * 94)]) st2)
        as (W' & L' & added & E & F).
      * apply well_placed_push; assumption.
      * rewrite length_app. cbn. lia.
      * split; [exact W'|]. split; [exact L'|].
        exists (new_house houses (3 + r1 * 94) (3 + r2 * 94) :: added).
        split; [rewrite E, <- app_assoc; reflexivity|].
        constructor; [exact Land|exact F].
    + apply IH; assumption.
Qed.

(** The second loop adds exactly the houses that are missing. *)
Lemma fill_spec (count missing : nat) (houses : list House) (st : Z) :
  well_placed houses ->
  (List.length houses + missing = count)%nat ->
  well_placed (fill count missing houses st)
  /\ List.length (fill count missing houses st) = count
  /\ exists rest,
       fill count missing houses st = houses ++ rest
       /\ List.length rest = missing.
Proof.
  revert houses st. induction missing as [|missing IH]; intros houses st W L.
  - cbn. split; [exact W|]. split; [lia|].
    exists []. rewrite app_nil_r. auto.
  - cbn [fill]. destruct (Nat.ltb_spec (List.length houses) count) as [Lt|Ge];
      [|lia].
    pose proof (mulberry32_draw st) as U1.
    destruct (mulberry32 st) as [r1 st1]. cbn [fst] in U1.
    pose proof (mulberry32_draw st1) as U2.
    destruct (mulberry32 st1) as [r2 st2]. cbn [fst] in U2.
    destruct (IH (houses ++ [new_house houses (3 + r1 * 94) (3 + r2 * 94)]) st2)
      as (W' & L' & rest & E & F).
    + apply well_placed_push; assumption.
    + rewrite length_app. cbn. lia.
    + split; [exact W'|]. split; [exact L'|].
      exists (new_house houses (3 + r1 * 94) (3 + r2 * 94) :: rest).
      split; [rewrite E, <- app_assoc; reflexivity|cbn; lia].
Qed.

(** What [generateHouses] returns, loop by loop. *)
Lemma generateHouses_spec (count : nat) (mask : option MapMask) :
  well_placed (generateHouses count mask)
  /\ List.length (generateHouses count mask) = count
  /\ exists placed rest,
       generateHouses count mask = placed ++ rest
       /\ placed = fst (place mask count (count * 80) [] seed)
       /\ Forall (fun house => on_land mask house = true) placed
       /\ (List.length placed + List.length rest = count)%nat.
Proof.
  unfold generateHouses.
  destruct (place_spec mask count (count * 80) [] seed well_placed_nil
              (Nat.le_0_l count)) as (W & L & added & E & F).
  destruct (place mask count (count * 80) [] seed) as [placed st] eqn:P.
  cbn [fst] in *. cbn [app] in E. subst added.
  destruct (fill_spec count (count - List.length placed) placed st W)
    as (W' & L' & rest & E' & R); [lia|].
  split; [exact W'|]. split; [exact L'|].
  exists placed, rest. repeat split; try assumption. lia.
Qed.

Lemma lit_inj (s t : string) : lit s = lit t -> s = t.
Proof.
  revert t. induction s as [|a s IH]; intros [|b t]; cbn; try discriminate;
    [reflexivity|].
  intros [= E1 E2]. f_equal; [|apply IH, E2].
  rewrite <- (ascii_N_embedding a), <- (ascii_N_embedding b), E1. reflexivity.
Qed.

(** Two numbers with the same decimal writing are equal. *)
Lemma decimal_inj (n m : nat) : decimal n = decimal m -> n = m.
Proof.
  unfold decimal. intros E. apply lit_inj in E.
  assert (U : Some (Nat.to_uint n) = Some (Nat.to_uint m))
    by (rewrite <- !NilEmpty.usu, E; reflexivity).
  injection U as U.
  rewrite <- (Unsigned.of_to n), <- (Unsigned.of_to m), U. reflexivity.
Qed.

Lemma all_undelivered_remaining (houses : list House) :
  Forall (fun house => delivered house = false) houses ->
  filter undelivered houses = houses.
Proof.
  induction 1 as [|house rest D _ IH]; [reflexivity|].
  cbn. unfold undelivered at 1. rewrite D. cbn. f_equal. exact IH.
Qed.

Lemma well_placed_Forall (houses : list House) (P : House -> Prop) :
  well_placed houses ->
  (forall i house, numbered i house -> P house) ->
  Forall P houses.
Proof.
  intros W H. apply Forall_forall. intros house I.
  apply In_nth_error in I as [i E]. exact (H i house (W i house E)).
Qed.

(** X2.  [generateHouses] returns exactly [count] houses, whatever the mask
    is, even one without any land, and none of them is delivered: once they
    are placed and rendered, the whole count is what remains to deliver,
    in [remainingDeliveries] and in [remainingRef]. *)
Theorem generateHouses_count (count : nat) (mask : option MapMask)
    (flag : bool) (uid0 uid1 : jsstring) (now : Q) :
  List.length (generateHouses count mask) = count
  /\ Forall (fun house => delivered house = false) (generateHouses count mask)
  /\ remainingDeliveries
       (state (started (generateHouses count mask) flag uid0 uid1 now)) = count
  /\ remainingRef
       (refs (started (generateHouses count mask) flag uid0 uid1 now)) = count.
Proof.
  destruct (generateHouses_spec count mask) as (W & L & _).
  assert (D : Forall (fun house => delivered house = false)
                (generateHouses count mask)).
  { apply well_placed_Forall with (1 := W). intros i house N. apply N. }
  split; [exact L|]. split; [exact D|].
  assert (R : remainingDeliveries
                (state (started (generateHouses count mask) flag uid0 uid1 now))
              = count).
  { unfold remainingDeliveries. cbn [started commit placed update state houses
      setLogs setHouses mounted]. rewrite all_undelivered_remaining; assumption. }
  split; [exact R|]. exact R.
Qed.

(** X3.  The i-th house of [generateHouses], counting from 0, has the id
    house-(i+1) and the label House (i+1); no two houses share an id. *)
Theorem generateHouses_ids (count : nat) (mask : option MapMask) :
  (forall i, (i < count)%nat ->
     exists house,
       nth_error (generateHouses count mask) i = Some house
       /\ id house = lit "house-" ++ decimal (i + 1)
       /\ label house = lit "House " ++ decimal (i + 1))
  /\ NoDup (map id (generateHouses count mask)).
Proof.
  destruct (generateHouses_spec count mask) as (W & L & _).
  split.
  - intros i Hi.
    destruct (nth_error (generateHouses count mask) i) as [house|] eqn:E.
    + exists house. destruct (W i house E) as (I & B & _). auto.
    + apply nth_error_None in E. lia.
  - apply NoDup_nth_error. intros i j Hi E.
    rewrite length_map in Hi. rewrite !nth_error_map in E.
    destruct (nth_error (generateHouses count mask) i) as [hi|] eqn:Ei.
    2:{ apply nth_error_None in Ei. lia. }
    destruct (nth_error (generateHouses count mask) j) as [hj|] eqn:Ej;
      [|discriminate E].
    cbn in E. injection E as E.
    destruct (W i hi Ei) as (Ii & _). destruct (W j hj Ej) as (Ij & _).
    rewrite Ii, Ij in E. apply app_inv_head in E. apply decimal_inj in E. lia.
Qed.

(** X4.  Every house of [generateHouses] lies from 3, included, to 97,
    excluded, on both axes, hence inside the bounds the sleigh is clamped
    to. *)
Theorem generateHouses_coordinates (count : nat) (mask : option MapMask) :
  Forall (fun house =>
            3 <= latitude house /\ latitude house < 97
            /\ 3 <= longitude house /\ longitude house < 97
            /\ inside {| x := longitude house; y := latitude house |})
         (generateHouses count mask).
Proof.
  destruct (generateHouses_spec count mask) as (W & _).
  apply well_placed_Forall with (1 := W).
  intros i house (_ & _ & _ & A1 & A2 & O1 & O2).
  repeat split; try assumption; cbn.
  - eapply Qle_trans; [|exact O1]. discriminate.
  - apply Qlt_le_weak. eapply Qlt_trans; [exact O2|]. reflexivity.
  - eapply Qle_trans; [|exact A1]. discriminate.
  - apply Qlt_le_weak. eapply Qlt_trans; [exact A2|]. reflexivity.
Qed.

(** The first loop places as many houses as candidates on land it finds,
    up to [count]. *)
Lemma place_length (mask : option MapMask) (count budget : nat)
    (houses : list House) (st : Z) :
  (List.length houses <= count)%nat ->
  List.length (fst (place mask count budget houses st))
  = Nat.min count (List.length houses + land_found mask budget st).
Proof.
  unfold land_found.
  revert houses st. induction budget as [|budget IH]; intros houses st L.
  - cbn. lia.
  - cbn [place candidates].
    destruct (Nat.ltb_spec (List.length houses) count) as [Lt|Ge].
    2:{ cbn [fst]. lia. }
    destruct (mulberry32 st) as [r1 st1].
    destruct (mulberry32 st1) as [r2 st2].
    cbn [filter fst snd].
    destruct (isLand mask (3 + r1 * 94) (3 + r2 * 94)); cbn [negb].
    + rewrite IH by (rewrite length_app; cbn; lia).
      rewrite length_app. cbn [List.length]. lia.
    + rewrite IH by lia. reflexivity.
Qed.

Lemma candidates_length (n : nat) (st : Z) : List.length (candidates n st) = n.
Proof.
  revert st. induction n as [|n IH]; intros st; cbn [candidates];
    [reflexivity|].
  destruct (mulberry32 st) as [r1 st1]. destruct (mulberry32 st1) as [r2 st2].
  cbn. rewrite IH. reflexivity.
Qed.

Lemma filter_all {A} (p : A -> bool) (l : list A) :
  (forall e, p e = true) -> filter p l = l.
Proof.
  intros H. induction l as [|e l IH]; cbn; [reflexivity|].
  rewrite H, IH. reflexivity.
Qed.

(** X5.  [generateHouses] returns first the houses of its first loop, all on
    the land of the mask, then those of the fallback.  The first loop places
    as many houses as there are candidates on land among its 80 * count
    attempts, up to [count]; the fallback adds the rest without looking at
    the mask.  So when every point is land, and when there is no mask, the
    fallback adds nothing. *)
Theorem generateHouses_land (count : nat) (mask : option MapMask) :
  exists placed rest,
    generateHouses count mask = placed ++ rest
    /\ Forall (fun house => on_land mask house = true) placed
    /\ List.length placed = Nat.min count (land_found mask (count * 80) seed)
    /\ List.length rest = (count - land_found mask (count * 80) seed)%nat
    /\ ((forall latitude longitude, isLand mask latitude longitude = true) ->
        rest = []).
Proof.
  destruct (generateHouses_spec count mask)
    as (_ & _ & placed & rest & E & P & F & L).
  assert (N : List.length placed
              = Nat.min count (land_found mask (count * 80) seed)).
  { rewrite P, place_length by apply Nat.le_0_l. reflexivity. }
  exists placed, rest. split; [exact E|]. split; [exact F|].
  split; [exact N|]. split; [lia|].
  intros A. unfold land_found in N.
  rewrite filter_all, candidates_length in N by (intros c; apply A).
  destruct rest; [reflexivity|]. cbn in L. nia.
Qed.

Lemma Forall_checked {A} (p : A -> bool) (b : bool) (l : list A) :
  forallb (fun e => Bool.eqb (p e) b) l = true ->
  Forall (fun e => p e = b) l.
Proof.
  intros F. apply Forall_forall. intros e I.
  rewrite forallb_forall in F. apply eqb_prop, F, I.
Qed.

Lemma generateHouses_land_witness :
  (exists placed,
     generateHouses 3 None = placed ++ [] /\ List.length placed = 3%nat)
  /\ Forall (fun house => on_land (Some half_land) house = true)
       (generateHouses 3 (Some half_land))
  /\ Forall (fun house => on_land (Some all_sea) house = false)
       (generateHouses 2 (Some all_sea)).
Proof.
  split; [|split].
  - destruct (generateHouses_land 3 None) as (placed & rest & E & _ & N & _ & R).
    rewrite (R (fun _ _ => eq_refl)) in E.
    exists placed. split; [exact E|]. rewrite N. vm_compute. reflexivity.
  - apply (Forall_checked (on_land (Some half_land)) true).
    vm_compute. reflexivity.
  - apply (Forall_checked (on_land (Some all_sea)) false).
    vm_compute. reflexivity.
Defined.

(** X6.  On a mask of at least one pixel whose data holds four bytes for
    each pixel, [isLand] reads its alpha inside the data for every point,
    also one outside the map: it never compares [undefined]. *)
Theorem isLand_reads_inside (mask : MapMask) (latitude longitude : Q) :
  (1 <= width mask)%Z ->
  (1 <= height mask)%Z ->
  Z.of_nat (List.length (data mask)) = (4 * width mask * height mask)%Z ->
  (0 <= alpha_index mask latitude longitude
   < Z.of_nat (List.length (data mask)))%Z
  /\ exists alpha,
       at_index (data mask) (alpha_index mask latitude longitude) = Some alpha
       /\ isLand (Some mask) latitude longitude = (10 <? alpha)%Z.
Proof.
  intros W H L.
  assert (R : (0 <= alpha_index mask latitude longitude
               < Z.of_nat (List.length (data mask)))%Z).
  { unfold alpha_index. rewrite L.
    set (px := Z.max 0 (Z.min (width mask - 1) _)).
    set (py := Z.max 0 (Z.min (height mask - 1) _)).
    assert (0 <= px <= width mask - 1)%Z by (unfold px; lia).
    assert (0 <= py <= height mask - 1)%Z by (unfold py; lia).
    nia. }
  split; [exact R|].
  unfold isLand, at_index.
  destruct (Z.ltb_spec (alpha_index mask latitude longitude) 0); [lia|].
  destruct (nth_error (data mask)
              (Z.to_nat (alpha_index mask latitude longitude))) as [alpha|] eqn:E.
  - exists alpha. auto.
  - apply nth_error_None in E. lia.
Qed.

Lemma isLand_reads_inside_witness :
  isLand (Some half_land) 50 (-20) = false
  /\ isLand (Some half_land) 130 80 = true.
Proof.
  destruct (isLand_reads_inside half_land 50 (-20))
    as (_ & a1 & E1 & ->); [cbn; lia | cbn; lia | reflexivity |].
  destruct (isLand_reads_inside half_land 130 80)
    as (_ & a2 & E2 & ->); [cbn; lia | cbn; lia | reflexivity |].
  vm_compute in E1, E2. injection E1 as <-. injection E2 as <-.
  split; reflexivity.
Defined.

(** The pixel is computed in doubles: the double nearest to 58 / 100 times
    25 is a little under 14.5, so that the column is 14, where the exact
    product 14.5 would give 15. *)
Example isLand_pixel_in_doubles :
  alpha_index {| data := []; width := 25; height := 1 |} 0 58 = (14 * 4 + 3)%Z
  /\ Math_round (58 / 100 * 25) = 15%Z.
Proof. vm_compute. split; reflexivity. Qed.

(* ================================================================= *)
(** ** The event log *)

Import Panel.

Lemma push_log_length (entry : LogEntry) (current : list LogEntry) :
  List.length (push_log entry current)
  = S (Nat.min 12 (List.length current)).
Proof.
  unfold push_log. rewrite length_app, length_skipn.
  change (List.length [entry]) with 1%nat. lia.
Qed.

Lemma logged_bound (before after : list LogEntry) :
  logged before after ->
  (List.length before <= 13)%nat -> (List.length after <= 13)%nat.
Proof.
  intros [->|[entry ->]] B; [exact B|]. rewrite push_log_length. lia.
Qed.

Ltac logs_frame :=
  repeat match goal with
         | |- context [if ?b then _ else _] => destruct b
         | |- context [match ?r with Resolved _ => _ | Rejected => _ end] => destruct r
         | |- context [match ?l with [] => _ | _ :: _ => _ end] => destruct l
         end;
  cbn; first [left; reflexivity | right; eexists; reflexivity].

Section LogFacts.

Variable hypot : Q -> Q -> Q.

Lemma step_logged (timestamp rnd : Q) (uid : jsstring) (a a' : App) :
  step hypot timestamp rnd uid a = Some a' ->
  logged (logs (state a)) (logs (state a')).
Proof.
  unfold step.
  destruct (active (compliance (rendered (assign_last timestamp a)))).
  { intros [= <-]. left. reflexivity. }
  destruct (truthy _) as [tid|].
  2:{ unfold pickNextTarget.
      destruct (filter undelivered _) as [|h rest].
      - intros [= <-]. left. reflexivity.
      - destruct (random_element rnd (h :: rest)); [|discriminate].
        intros [= <-]. right. eexists. reflexivity. }
  destruct (resolve _ _) as [target|].
  2:{ intros [= <-]. left. reflexivity. }
  destruct (Qltb _ _); intros [= <-].
  - right. eexists. reflexivity.
  - left. reflexivity.
Qed.

Lemma handle_logged (e : Event) (a a' : App) :
  handle hypot e a = Some a' -> logged (logs (state a)) (logs (state a')).
Proof.
  destruct e; cbn [handle]; intros H;
    [ eapply step_logged; eassumption | .. ]; injection H as <-.
  - unfold triggerCompliance, logged. logs_frame.
  - unfold startDrafting, logged. logs_frame.
  - unfold validateCase_request, logged. logs_frame.
  - unfold validateCase_settle, logged. logs_frame.
  - unfold submitCase, logged. logs_frame.
  - unfold submitCase_timeout, logged. logs_frame.
  - unfold sendChat, logged. logs_frame.
  - left. reflexivity.
  - unfold draft_effect, logged. logs_frame.
  - left. reflexivity.
Qed.

Lemma run_log_bound (events : list Event) (a a' : App) :
  run hypot events a = Some a' ->
  (List.length (logs (state a)) <= 13)%nat ->
  (List.length (logs (state a')) <= 13)%nat.
Proof.
  revert a. induction events as [|e rest IH]; intros a; cbn [run].
  - intros [= <-]. auto.
  - destruct (handle hypot e a) as [a1|] eqn:H; [|discriminate].
    intros R B. apply (IH a1 R).
    eapply logged_bound; [eapply handle_logged; eassumption|exact B].
Qed.

End LogFacts.

(** X7.  The log is a window: an entry is added after the last 12 entries
    that were there, so that the new log ends with the new entry and has one
    entry more than 12 at most; whatever events follow the start of the
    component, the log never holds more than 13 entries. *)
Theorem log_window (hypot : Q -> Q -> Q) (generated : list House)
    (mask : bool) (uid0 uid1 : jsstring) (now : Q) (events : list Event)
    (entry : LogEntry) (current : list LogEntry) :
  (exists dropped kept,
      current = dropped ++ kept
      /\ push_log entry current = kept ++ [entry]
      /\ List.length kept = Nat.min 12 (List.length current))
  /\ (forall a',
        run hypot events (started generated mask uid0 uid1 now) = Some a' ->
        (List.length (logs (state a')) <= 13)%nat).
Proof.
  split.
  - exists (firstn (List.length current - 12) current),
           (skipn (List.length current - 12) current).
    split; [symmetry; apply firstn_skipn|]. split; [reflexivity|].
    rewrite length_skipn. lia.
  - intros a' R. apply (run_log_bound hypot events _ a' R). cbn. lia.
Qed.

Lemma log_window_witness :
  match run hypot6 Town.first_delivery Town.opening with
  | Some a' => (List.length (logs (state a')) <= 13)%nat
  | None => False
  end.
Proof.
  destruct (run hypot6 Town.first_delivery Town.opening) as [a'|] eqn:R.
  - destruct (log_window hypot6 Town.town true (lit "log-0") (lit "log-1") 0
                Town.first_delivery {| log_id := []; text := [] |} [])
      as (_ & B).
    apply B, R.
  - vm_compute in R. discriminate R.
Defined.

(* ================================================================= *)
(** ** The houses along a run *)

Lemma delivered_more_refl (l : list House) : delivered_more l l.
Proof.
  unfold delivered_more. induction l; constructor; auto.
Qed.

Lemma delivered_more_trans (l1 l2 l3 : list House) :
  delivered_more l1 l2 -> delivered_more l2 l3 -> delivered_more l1 l3.
Proof.
  unfold delivered_more. intros H. revert l3.
  induction H as [|h1 h2 l1 l2 (I & B & A & O & D) _ IH]; intros l3 H3;
    inversion H3 as [|? h3 ? l3' (I' & B' & A' & O' & D') H3']; subst;
    constructor; [|apply IH, H3'].
  repeat split; try congruence. auto.
Qed.

Lemma delivered_more_map (target : House) (l : list House) :
  delivered_more l
    (map (fun house =>
            if str_eqb (id house) (id target)
            then {| id := id house; label := label house;
                    latitude := latitude house; longitude := longitude house;
                    delivered := true |}
            else house) l).
Proof.
  unfold delivered_more. induction l as [|h l IH]; cbn; constructor; [|exact IH].
  destruct (str_eqb (id h) (id target)); cbn; repeat split; auto.
Qed.

Lemma delivered_more_remaining (l l' : list House) :
  delivered_more l l' ->
  (List.length (filter undelivered l') <= List.length (filter undelivered l))%nat.
Proof.
  unfold delivered_more.
  induction 1 as [|h h' l l' (_ & _ & _ & _ & D) _ IH]; [reflexivity|].
  cbn [filter].
  assert (Uh : undelivered h = negb (delivered h)) by reflexivity.
  assert (Uh' : undelivered h' = negb (delivered h')) by reflexivity.
  rewrite Uh, Uh'.
  destruct (delivered h) eqn:Dh.
  - rewrite (D eq_refl). cbn [negb]. exact IH.
  - destruct (delivered h'); cbn [negb List.length]; lia.
Qed.

Section HouseFacts.

Variable hypot : Q -> Q -> Q.

Lemma step_delivered_more (timestamp rnd : Q) (uid : jsstring) (a a' : App) :
  step hypot timestamp rnd uid a = Some a' ->
  delivered_more (houses (state a)) (houses (state a')).
Proof.
  unfold step.
  destruct (active (compliance (rendered (assign_last timestamp a)))).
  { intros [= <-]. apply delivered_more_refl. }
  destruct (truthy _) as [tid|].
  2:{ intros P. apply pickNextTarget_frame in P as (H & _).
      rewrite H. apply delivered_more_refl. }
  destruct (resolve _ _) as [target|].
  2:{ intros [= <-]. apply delivered_more_refl. }
  destruct (Qltb _ _); intros [= <-].
  - apply delivered_more_map.
  - apply delivered_more_refl.
Qed.

Lemma handle_delivered_more (e : Event) (a a' : App) :
  handle hypot e a = Some a' ->
  delivered_more (houses (state a)) (houses (state a')).
Proof.
  intros H.
  destruct (handle_motion hypot e a a' H) as [(t & r & u & ->)|[(now & ->)|M]].
  - cbn in H. eapply step_delivered_more; eassumption.
  - cbn in H. injection H as <-. apply delivered_more_refl.
  - destruct M as (-> & _). apply delivered_more_refl.
Qed.

Lemma run_delivered_more (events : list Event) (a a' : App) :
  run hypot events a = Some a' ->
  delivered_more (houses (state a)) (houses (state a')).
Proof.
  revert a. induction events as [|e rest IH]; intros a; cbn [run].
  - intros [= <-]. apply delivered_more_refl.
  - destruct (handle hypot e a) as [a1|] eqn:H; [|discriminate].
    intros R. eapply delivered_more_trans;
      [eapply handle_delivered_more; eassumption|apply IH, R].
Qed.

End HouseFacts.

(** X8.  No event adds, removes, reorders, renames or moves a house: after
    any run the list holds the same houses in the same places, with the same
    ids, labels and coordinates, and every house that was delivered still
    is; so the number of houses that remain to deliver never goes up. *)
Theorem houses_only_get_delivered (hypot : Q -> Q -> Q) (events : list Event)
    (a a' : App) :
  run hypot events a = Some a' ->
  delivered_more (houses (state a)) (houses (state a'))
  /\ List.length (houses (state a')) = List.length (houses (state a))
  /\ (remainingDeliveries (state a') <= remainingDeliveries (state a))%nat.
Proof.
  intros R. pose proof (run_delivered_more hypot events a a' R) as M.
  split; [exact M|]. split.
  - symmetry. eapply Forall2_length, M.
  - apply delivered_more_remaining, M.
Qed.

Lemma houses_only_get_delivered_witness :
  match run hypot6 Town.first_delivery Town.opening with
  | Some a' =>
      remainingDeliveries (state a') = 1%nat
      /\ (remainingDeliveries (state a')
          <= remainingDeliveries (state Town.opening))%nat
  | None => False
  end.
Proof.
  destruct (run hypot6 Town.first_delivery Town.opening) as [a'|] eqn:R.
  - destruct (houses_only_get_delivered hypot6 Town.first_delivery
                Town.opening a' R) as (_ & _ & M).
    split; [|exact M].
    vm_compute in R. injection R as <-. reflexivity.
  - vm_compute in R. discriminate R.
Defined.

(* ================================================================= *)
(** ** The session from the alert to the reset *)

Lemma step_compliance (hypot : Q -> Q -> Q) (timestamp rnd : Q) (uid : jsstring)
    (a a' : App) :
  step hypot timestamp rnd uid a = Some a' ->
  compliance (state a') = compliance (state a).
Proof.
  unfold step.
  destruct (active (compliance (rendered (assign_last timestamp a)))).
  { intros [= <-]. reflexivity. }
  destruct (truthy _) as [tid|].
  2:{ intros P. apply pickNextTarget_frame in P as (_ & _ & _ & _ & _ & C & _).
      exact C. }
  destruct (resolve _ _) as [target|].
  2:{ intros [= <-]. reflexivity. }
  destruct (Qltb _ _); intros [= <-]; reflexivity.
Qed.

(** Only the time-out of [submitCase] ends a compliance event. *)
Lemma handle_keeps_active (hypot : Q -> Q -> Q) (e : Event) (a a' : App) :
  handle hypot e a = Some a' ->
  e <> SubmitTimeout ->
  active (compliance (state a)) = true ->
  active (compliance (state a')) = true.
Proof.
  destruct e; cbn [handle]; intros H N A; try congruence.
  - apply step_compliance in H. rewrite H. exact A.
  - injection H as <-. unfold triggerCompliance.
    destruct cancelled; [exact A|].
    destruct (negb _ && _); [reflexivity|exact A].
  - injection H as <-. exact A.
  - injection H as <-. unfold validateCase_request.
    destruct (_ || _); exact A.
  - injection H as <-. destruct r; exact A.
  - injection H as <-. exact A.
  - injection H as <-. unfold sendChat. destruct (_ || _); exact A.
  - injection H as <-. exact A.
  - injection H as <-. unfold draft_effect.
    destruct (rev _) as [|m ?]; [exact A|].
    destruct (nonempty (content m)); exact A.
  - injection H as <-. exact A.
Qed.

(** While the published state is active, an event that is not the time-out
    leaves the sleigh, its target and the houses as they are. *)
Lemma handle_parked (hypot : Q -> Q -> Q) (e : Event) (now : Q) (a a' : App) :
  published a ->
  active (compliance (state a)) = true ->
  e <> SubmitTimeout ->
  handle hypot e a = Some a' ->
  houses (state a') = houses (state a)
  /\ santa (state a') = santa (state a)
  /\ targetId (state a') = targetId (state a).
Proof.
  intros [P1 P2] A N H.
  destruct (handle_motion hypot e a a' H) as [(t & r & u & ->)|[(n & ->)|M]].
  - cbn in H. unfold step in H. cbn [rendered assign_last] in H.
    rewrite P1, A in H. injection H as <-. cbn. auto.
  - cbn in H. injection H as <-. cbn. auto.
  - destruct M as (Hh & Hs & Ht & _). auto.
Qed.

Lemma run_rendered_parked (hypot : Q -> Q -> Q) (events : list (Event * Q))
    (a a' : App) :
  published a ->
  active (compliance (state a)) = true ->
  Forall (fun e => fst e <> SubmitTimeout) events ->
  run_rendered hypot events a = Some a' ->
  active (compliance (state a')) = true
  /\ houses (state a') = houses (state a)
  /\ santa (state a') = santa (state a)
  /\ targetId (state a') = targetId (state a).
Proof.
  revert a. induction events as [|[e now] rest IH]; intros a P A F;
    cbn [run_rendered].
  - intros [= <-]. auto.
  - inversion F as [|? ? Fe Fr]; subst. cbn in Fe.
    destruct (handle hypot e a) as [a1|] eqn:H; [|discriminate].
    intros R.
    destruct (handle_parked hypot e now a a1 P A Fe H) as (Hh & Hs & Ht).
    pose proof (handle_keeps_active hypot e a a1 H Fe A) as A1.
    destruct (IH (commit now a1)) as (A' & Hh' & Hs' & Ht'); auto.
    { apply commit_published. }
    cbn in Hh', Hs', Ht'. repeat split; congruence.
Qed.

(** X9.  A compliance event, once active, stays active through every
    callback but the time-out that follows a submission: the frames, the
    timer, drafting, validation, its result, the submission itself and the
    chat leave the flag set.  React rendering after each callback, the
    sleigh, its target and the houses are the same from the render of the
    alert until that time-out, the stage submitted included. *)
Theorem parked_until_timeout (hypot : Q -> Q -> Q) (events : list (Event * Q))
    (a a' : App) :
  published a ->
  active (compliance (state a)) = true ->
  Forall (fun e => fst e <> SubmitTimeout) events ->
  run_rendered hypot events a = Some a' ->
  active (compliance (state a')) = true
  /\ houses (state a') = houses (state a)
  /\ santa (state a') = santa (state a)
  /\ targetId (state a') = targetId (state a).
Proof. apply run_rendered_parked. Qed.

Lemma parked_until_timeout_witness :
  match run_rendered hypot6 Scenes.session Town.alerted with
  | Some a' =>
      stage (compliance (state a')) = submitted
      /\ active (compliance (state a')) = true
      /\ santa (state a') = santa (state Town.alerted)
  | None => False
  end.
Proof.
  destruct (run_rendered hypot6 Scenes.session Town.alerted) as [a'|] eqn:R.
  - destruct (parked_until_timeout hypot6 Scenes.session Town.alerted a')
      as (A & _ & S & _).
    + split; reflexivity.
    + reflexivity.
    + unfold Scenes.session. repeat constructor; cbn; discriminate.
    + exact R.
    + split; [|split; assumption].
      vm_compute in R. injection R as <-. reflexivity.
  - vm_compute in R. discriminate R.
Defined.

(** X10.  From any published alert with a transcript, the controls of the
    modal lead back to the idle state: start is offered and moves to
    drafting; validate is then offered and sets [isValidating]; the resolved
    request moves to ready; submit is then offered and moves to submitted,
    the event still active; the time-out resets the ComplianceState to
    inactive, without agency, idle, empties the transcript and the draft,
    and once rendered the frame loop is no longer suspended.  Houses,
    position and target are untouched all along. *)
Theorem session_completes (uid1 uid2 body : jsstring) (t1 t2 t3 t4 t5 : Q)
    (a : App) :
  published a ->
  active (compliance (state a)) = true ->
  stage (compliance (state a)) = alert ->
  isValidating (state a) = false ->
  chatMessages (state a) <> [] ->
  let a1 := commit t1 (click StartButton uid1 a) in
  let a2 := commit t2 (click ValidateButton uid1 a1) in
  let a3 := commit t3 (validateCase_settle (Resolved body) a2) in
  let a4 := commit t4 (click SubmitButton uid2 a3) in
  let a5 := commit t5 (submitCase_timeout a4) in
  stage (compliance (state a1)) = drafting
  /\ isValidating (state a2) = true
  /\ stage (compliance (state a3)) = ready
  /\ isValidating (state a3) = false
  /\ compliance (state a4)
     = {| active := true; agency := agency (compliance (state a));
          stage := submitted |}
  /\ compliance (state a5)
     = {| active := false; agency := None; stage := idle |}
  /\ chatMessages (state a5) = []
  /\ draftSections (state a5) = emptyDraft
  /\ active (compliance (rendered a5)) = false
  /\ houses (state a5) = houses (state a)
  /\ santa (state a5) = santa (state a)
  /\ targetId (state a5) = targetId (state a).
Proof.
  destruct a as [[hs sa ti lg [ac ag st] iv dr cm] rd rf ls].
  intros [P1 P2]. cbn in P1, P2. subst rd rf.
  intros A S V N. cbn in A, S, V, N. subst ac st iv.
  destruct cm as [|m cm]; [contradiction|].
  vm_compute. repeat split.
Qed.

Lemma session_completes_witness :
  let a1 := commit 6000 (click StartButton (lit "log-4") Town.alerted) in
  let a2 := commit 7000 (click ValidateButton (lit "log-4") a1) in
  let a3 := commit 10000 (validateCase_settle (Resolved validate_POST) a2) in
  let a4 := commit 11000 (click SubmitButton (lit "log-5") a3) in
  let a5 := commit 12600 (submitCase_timeout a4) in
  compliance (state a5) = {| active := false; agency := None; stage := idle |}
  /\ chatMessages (state a5) = [].
Proof.
  destruct (session_completes (lit "log-4") (lit "log-5") validate_POST
              6000 7000 10000 11000 12600 Town.alerted)
    as (_ & _ & _ & _ & _ & C & M & _).
  - split; reflexivity.
  - reflexivity.
  - reflexivity.
  - reflexivity.
  - vm_compute. discriminate.
  - split; assumption.
Defined.

(* ================================================================= *)
(** ** The target panel *)

(** X11.  React rendering after each callback, the panel of the current
    target has a house to show exactly when a target is set, and that house
    has the id of the target and is not delivered. *)
Theorem currentTarget_shown (hypot : Q -> Q -> Q) (generated : list House)
    (mask : bool) (uid0 uid1 : jsstring) (now : Q)
    (events : list (Event * Q)) (a' : App) :
  run_rendered hypot events (started generated mask uid0 uid1 now) = Some a' ->
  (currentTarget (state a') = None <-> targetId (state a') = None)
  /\ forall house,
       currentTarget (state a') = Some house ->
       targetId (state a') = Some (id house) /\ delivered house = false.
Proof.
  intros R.
  destruct (run_rendered_target hypot events
              (started generated mask uid0 uid1 now) a') as [_ J].
  { apply commit_published. }
  { intros tid. cbn. discriminate. }
  { exact R. }
  unfold currentTarget. destruct (targetId (state a')) as [tid|].
  - split.
    + split; [|discriminate]. intros F.
      destruct (J tid eq_refl) as (house & I & E & D).
      apply find_none with (x := house) in F; [|exact I].
      rewrite E, D in F.
      assert (T : str_eqb tid tid = true) by (apply str_eqb_eq; reflexivity).
      rewrite T in F. discriminate F.
    + intros house F. apply find_some in F as [_ F].
      apply andb_true_iff in F as [E D].
      apply str_eqb_eq in E. apply negb_true_iff in D. subst. auto.
  - split.
    + split; [reflexivity|]. intros _. clear J.
      induction (houses (state a')) as [|h l IH]; [reflexivity|exact IH].
    + intros house F. apply find_some in F as [_ F]. discriminate F.
Qed.

Lemma currentTarget_shown_witness :
  match run_rendered hypot6 Town.delivery_frames Town.opening with
  | Some a' => currentTarget (state a') = Some Town.house1
  | None => False
  end.
Proof.
  destruct (run_rendered hypot6 Town.delivery_frames Town.opening)
    as [a'|] eqn:R.
  - destruct (currentTarget_shown hypot6 Town.town true (lit "log-0")
                (lit "log-1") 0 Town.delivery_frames a' R) as (_ & _).
    vm_compute in R. injection R as <-. reflexivity.
  - vm_compute in R. discriminate R.
Defined.

(* ================================================================= *)
(** ** How far a frame moves the sleigh *)

Lemma Qltb_lt (a b : Q) : Qltb a b = true -> a < b.
Proof.
  unfold Qltb. intros H. apply negb_true_iff in H.
  apply Qnot_le_lt. intros L. apply Qle_bool_iff in L. congruence.
Qed.




Section MovementFacts.

Variable hypot : Q -> Q -> Q.

(** [Math.hypot] is at least the absolute value of each argument. *)
Hypothesis hypot_covers :
  forall dx dy,
    - hypot dx dy <= dx /\ dx <= hypot dx dy
    /\ - hypot dx dy <= dy /\ dy <= hypot dx dy.


End MovementFacts.




(* ================================================================= *)
(** ** One delivery at a time *)

Lemma mark_others (target : House) (l : list House) :
  (forall house, In house l -> id house <> id target) ->
  map (fun house =>
         if str_eqb (id house) (id target)
         then {| id := id house; label := label house;
                 latitude := latitude house; longitude := longitude house;
                 delivered := true |}
         else house) l = l.
Proof.
  induction l as [|h l IH]; intros N; cbn; [reflexivity|].
  destruct (str_eqb (id h) (id target)) eqn:E.
  - apply str_eqb_eq in E. exfalso. apply (N h); [left; reflexivity|exact E].
  - rewrite IH; [reflexivity|]. intros house I. apply N. right. exact I.
Qed.

Lemma mark_one (target : House) (l : list House) :
  NoDup (map id l) -> In target l -> delivered target = false ->
  (List.length (filter undelivered
     (map (fun house =>
             if str_eqb (id house) (id target)
             then {| id := id house; label := label house;
                     latitude := latitude house; longitude := longitude house;
                     delivered := true |}
             else house) l)) + 1
   = List.length (filter undelivered l))%nat.
Proof.
  induction l as [|h l IH]; intros N I D; [contradiction|].
  cbn [map] in N. inversion N as [|? ? Nh Nl]; subst.
  cbn [map filter].
  destruct (str_eqb (id h) (id target)) eqn:E.
  - apply str_eqb_eq in E.
    assert (T : h = target).
    { destruct I as [I|I]; [exact I|]. exfalso. apply Nh. rewrite E.
      apply in_map, I. }
    subst h. rewrite mark_others.
    + assert (U : undelivered target = true)
        by (unfold undelivered; rewrite D; reflexivity).
      rewrite U. cbn. lia.
    + intros house Ih Eh. apply Nh. rewrite <- Eh. apply in_map, Ih.
  - destruct I as [I|I].
    { subst h. assert (T : str_eqb (id target) (id target) = true)
        by (apply str_eqb_eq; reflexivity). congruence. }
    specialize (IH Nl I D).
    destruct (undelivered h); cbn [List.length]; lia.
Qed.

(** X14.  A frame that changes the houses is a delivery: the sleigh is
    within the arrival radius of the house its target resolves to, it stays
    where it is, and the target is cleared.  When the state is published and
    no two houses share an id, as [generateHouses] ensures, exactly one
    house is delivered: the count of those that remain goes down by one. *)
Theorem one_delivery_per_frame (hypot : Q -> Q -> Q) (timestamp rnd : Q)
    (uid : jsstring) (a a' : App) :
  published a ->
  NoDup (map id (houses (state a))) ->
  step hypot timestamp rnd uid a = Some a' ->
  houses (state a') <> houses (state a) ->
  (exists tid target,
      truthy (targetRef (refs a)) = Some tid
      /\ resolve tid (housesRef (refs a)) = Some target
      /\ distance_to hypot target (santaRef (refs a)) < arrivalRadius)
  /\ santa (state a') = santa (state a)
  /\ santaRef (refs a') = santaRef (refs a)
  /\ targetRef (refs a') = None
  /\ (remainingDeliveries (state a') + 1 = remainingDeliveries (state a))%nat.
Proof.
  intros [P1 P2] N.
  assert (HR : housesRef (refs a) = houses (state a)) by (rewrite P2; reflexivity).
  unfold step.
  destruct (active (compliance (rendered (assign_last timestamp a)))).
  { intros [= <-]. cbn. congruence. }
  cbn [refs assign_last].
  destruct (truthy (targetRef (refs a))) as [tid|] eqn:T.
  2:{ intros P. apply pickNextTarget_frame in P as (H & _). cbn in H. congruence. }
  destruct (resolve tid (housesRef (refs a))) as [target|] eqn:R.
  2:{ intros [= <-]. cbn. congruence. }
  destruct (Qltb _ _) eqn:C.
  2:{ intros [= <-]. cbn. congruence. }
  intros [= <-] _. cbn.
  split; [|split; [reflexivity|split; [reflexivity|split; [reflexivity|]]]].
  - exists tid, target.
    split; [first [reflexivity|exact T]|].
    split; [first [reflexivity|exact R]|].
    apply Qltb_lt, C.
  - unfold remainingDeliveries. cbn.
    apply resolve_some in R as (I & _ & D). rewrite HR in I.
    apply mark_one; assumption.
Qed.

Lemma one_delivery_per_frame_witness :
  match run_rendered hypot6 (firstn 1 Town.delivery_frames) Town.opening with
  | Some a =>
      match step hypot6 32 0 (lit "log-3") a with
      | Some a' =>
          remainingDeliveries (state a) = 2%nat
          /\ remainingDeliveries (state a') = 1%nat
          /\ targetRef (refs a') = None
      | None => False
      end
  | None => False
  end.
Proof.
  destruct (run_rendered hypot6 (firstn 1 Town.delivery_frames) Town.opening)
    as [a|] eqn:R; [|vm_compute in R; discriminate R].
  vm_compute in R. injection R as <-.
  match goal with |- match step ?h ?t ?r ?u ?s with _ => _ end =>
    destruct (step h t r u s) as [a'|] eqn:S;
      [ destruct (one_delivery_per_frame h t r u s a') as (_ & _ & _ & T & D)
      | vm_compute in S; discriminate S ]
  end.
  - split; reflexivity.
  - vm_compute. repeat constructor; cbn; intuition discriminate.
  - exact S.
  - vm_compute in S. injection S as <-. vm_compute. discriminate.
  - split; [reflexivity|]. split; [|exact T].
    vm_compute in S. injection S as <-. reflexivity.
Defined.

(* ================================================================= *)
(** ** The client of the drafting service *)

Import Dedalus.

Section ClientFacts.

Variable Client : Type.
Variable new_Dedalus : ProcessEnv -> jsstring -> Environment -> Outcome Client.

Lemma calls_cached (envs : list ProcessEnv) (client : Client) :
  calls new_Dedalus envs (Some client)
  = (repeat (Returned client) (List.length envs), Some client).
Proof.
  induction envs as [|env rest IH]; cbn [calls]; [reflexivity|].
  cbn [getDedalusClient]. rewrite IH. reflexivity.
Qed.

End ClientFacts.

(** X15.  Whatever the constructor of the package does: once
    [getDedalusClient] has returned a client, every later call returns that
    same client and none throws, whatever the environment variables have
    become, a removed or replaced key included.  In a sequence of calls
    from an empty cache, either all throw and the cache stays empty, or the
    calls throw up to the first one that returns, and that call and all
    the later ones return the client built then. *)
Theorem getDedalusClient_caches (Client : Type)
    (new_Dedalus : ProcessEnv -> jsstring -> Environment -> Outcome Client)
    (envs : list ProcessEnv) (client : Client) :
  calls new_Dedalus envs (Some client)
  = (repeat (Returned client) (List.length envs), Some client)
  /\ ((exists messages,
         calls new_Dedalus envs None = (map Thrown messages, None))
      \/ (exists messages env built later,
            calls new_Dedalus envs None
            = (map Thrown messages ++ repeat (Returned built) (S later),
               Some built)
            /\ nth_error envs (List.length messages) = Some env
            /\ getDedalusClient new_Dedalus env None
               = (Returned built, Some built)
            /\ List.length envs = (List.length messages + S later)%nat)).
Proof.
  split; [apply calls_cached|]. clear client.
  induction envs as [|env rest IH].
  - left. exists []. reflexivity.
  - cbn [calls].
    destruct (getDedalusClient new_Dedalus env None) as [result cache] eqn:G.
    unfold getDedalusClient in G.
    destruct (buildClient _ _ _) as [c|message] eqn:B; injection G as <- <-.
    + right. exists [], env, c, (List.length rest).
      rewrite calls_cached. cbn [map app nth_error List.length].
      repeat split. unfold getDedalusClient. rewrite B. reflexivity.
    + destruct IH as [(messages & E)|(messages & env' & built & later & E & N & G & L)].
      * left. exists (message :: messages). rewrite E. reflexivity.
      * right. exists (message :: messages), env', built, later.
        rewrite E. cbn [map app nth_error List.length].
        repeat split; try assumption. lia.
Qed.

(** X16.  From an empty cache, when DEDALUS_API_KEY is unset or empty,
    [getDedalusClient] throws the error of the missing key, whatever the
    constructor of the package does, and leaves the cache empty, so that a
    later call can still succeed.  Otherwise the outcome is that of the
    constructor, called with that key and with the development environment
    exactly when DEDALUS_ENV is the word development, and with production
    in every other case, the variable unset or holding any other text
    included: the client it returns is returned and cached, and what it
    throws is thrown with the cache left empty. *)
Theorem getDedalusClient_builds (Client : Type)
    (new_Dedalus : ProcessEnv -> jsstring -> Environment -> Outcome Client)
    (env : ProcessEnv) :
  ((DEDALUS_API_KEY env = None \/ DEDALUS_API_KEY env = Some []) ->
   getDedalusClient new_Dedalus env None
   = (Thrown (lit "Missing DEDALUS_API_KEY. Set it in your environment or .env file."),
      None))
  /\ (forall key,
        DEDALUS_API_KEY env = Some key -> key <> [] ->
        exists e,
          (e = development <-> DEDALUS_ENV env = Some (lit "development"))
          /\ (e = production <-> DEDALUS_ENV env <> Some (lit "development"))
          /\ match new_Dedalus env key e with
             | Returned client =>
                 getDedalusClient new_Dedalus env None
                 = (Returned client, Some client)
             | Thrown message =>
                 getDedalusClient new_Dedalus env None = (Thrown message, None)
             end).
Proof.
  split.
  - intros [E|E]; unfold getDedalusClient, buildClient; cbn [apiKey];
      rewrite E; reflexivity.
  - intros key E N. exists (chosen_environment env).
    split; [|split].
    + unfold chosen_environment. destruct (DEDALUS_ENV env) as [v|].
      * destruct (str_eqb v (lit "development")) eqn:D.
        -- apply str_eqb_eq in D. subst v. split; congruence.
        -- assert (v <> lit "development").
           { intros ->.
             assert (T : str_eqb (lit "development") (lit "development") = true)
               by reflexivity.
             congruence. }
           destruct (str_eqb v (lit "production")); split; congruence.
      * split; congruence.
    + unfold chosen_environment. destruct (DEDALUS_ENV env) as [v|].
      * destruct (str_eqb v (lit "development")) eqn:D.
        -- apply str_eqb_eq in D. subst v. split; congruence.
        -- assert (v <> lit "development").
           { intros ->.
             assert (T : str_eqb (lit "development") (lit "development") = true)
               by reflexivity.
             congruence. }
           destruct (str_eqb v (lit "production")); split; congruence.
      * split; congruence.
    + unfold getDedalusClient, buildClient. cbn [apiKey environment].
      rewrite E. destruct key as [|c key]; [contradiction|]. cbn [nonempty].
      destruct (new_Dedalus env (c :: key) (chosen_environment env));
        reflexivity.
Qed.

Lemma getDedalusClient_builds_witness :
  getDedalusClient strict unset None
  = (Thrown (lit "Missing DEDALUS_API_KEY. Set it in your environment or .env file."),
     None)
  /\ getDedalusClient strict
       (setenv "DEDALUS_API_KEY" "sk-7"
          (setenv "DEDALUS_BASE_URL" "http://localhost:8080" unset)) None
     = (Thrown (lit "Ambiguous URL"), None)
  /\ calls strict
       [ unset;
         setenv "DEDALUS_API_KEY" "sk-1" (setenv "DEDALUS_ENV" "staging" unset);
         unset;
         setenv "DEDALUS_API_KEY" "sk-2"
           (setenv "DEDALUS_ENV" "development" unset) ] None
     = ([Thrown (lit "Missing DEDALUS_API_KEY. Set it in your environment or .env file.");
         Returned {| kept_apiKey := lit "sk-1"; kept_environment := production |};
         Returned {| kept_apiKey := lit "sk-1"; kept_environment := production |};
         Returned {| kept_apiKey := lit "sk-1"; kept_environment := production |}],
        Some {| kept_apiKey := lit "sk-1"; kept_environment := production |}).
Proof.
  destruct (getDedalusClient_builds Kept strict unset) as (T & _).
  split; [apply T; left; reflexivity|].
  split; [|reflexivity].
  destruct (getDedalusClient_builds Kept strict
              (setenv "DEDALUS_API_KEY" "sk-7"
                 (setenv "DEDALUS_BASE_URL" "http://localhost:8080" unset)))
    as (_ & B).
  destruct (B (lit "sk-7")) as (e & _ & _ & G); [reflexivity|discriminate|].
  exact G.
Defined.

(* ================================================================= *)
(** ** Trimming *)

Import Texts.

Lemma dropWhile_head (p : char -> bool) (s : jsstring) (c : char) (r : jsstring) :
  dropWhile p s = c :: r -> p c = false.
Proof.
  induction s as [|d s IH]; cbn; [discriminate|].
  destruct (p d) eqn:E; [exact IH|]. intros [= <- _]. exact E.
Qed.

Lemma dropWhile_split (p : char -> bool) (s : jsstring) :
  exists dropped, s = dropped ++ dropWhile p s /\ forallb p dropped = true.
Proof.
  induction s as [|d s (dropped & E & F)]; cbn.
  - exists []. auto.
  - destruct (p d) eqn:P.
    + exists (d :: dropped). cbn. rewrite P, F, <- E. auto.
    + exists []. auto.
Qed.

Lemma dropWhile_In (p : char -> bool) (s : jsstring) (c : char) :
  In c (dropWhile p s) -> In c s.
Proof.
  destruct (dropWhile_split p s) as (dropped & E & _).
  intros I. rewrite E. apply in_or_app. right. exact I.
Qed.

Lemma dropWhile_fixed (p : char -> bool) (s : jsstring) :
  (forall c r, s = c :: r -> p c = false) -> dropWhile p s = s.
Proof.
  destruct s as [|c r]; [reflexivity|]. intros H. cbn.
  rewrite (H c r eq_refl). reflexivity.
Qed.

Lemma dropWhile_all (p : char -> bool) (s : jsstring) :
  forallb p s = true -> dropWhile p s = [].
Proof.
  induction s as [|c s IH]; cbn; [reflexivity|].
  intros H. apply andb_true_iff in H as [-> H]. apply IH, H.
Qed.

Lemma trim_In (s : jsstring) (c : char) : In c (trim s) -> In c s.
Proof.
  unfold trim. intros I. apply in_rev in I.
  apply dropWhile_In in I. apply in_rev in I.
  apply dropWhile_In in I. exact I.
Qed.

(** A trimmed text neither begins nor ends with white space. *)
Lemma trim_head (s : jsstring) (c : char) (r : jsstring) :
  trim s = c :: r -> is_space c = false.
Proof.
  unfold trim. intros E.
  destruct (dropWhile_split is_space (rev (dropWhile is_space s)))
    as (dropped & D & _).
  apply (f_equal (@rev char)) in D. rewrite rev_involutive, rev_app_distr in D.
  rewrite E in D. cbn in D.
  apply dropWhile_head in D. exact D.
Qed.

Lemma trim_last (s : jsstring) (c : char) (r : jsstring) :
  trim s = r ++ [c] -> is_space c = false.
Proof.
  unfold trim. intros E.
  apply (f_equal (@rev char)) in E. rewrite rev_involutive, rev_app_distr in E.
  cbn in E. apply dropWhile_head in E. exact E.
Qed.

Lemma trim_trimmed (s : jsstring) : trimmed (trim s).
Proof.
  unfold trimmed. unfold trim at 1.
  rewrite (dropWhile_fixed is_space (trim s)) by apply trim_head.
  rewrite dropWhile_fixed; [apply rev_involutive|].
  intros c r E. apply (f_equal (@rev char)) in E.
  rewrite rev_involutive in E. cbn in E. eapply trim_last, E.
Qed.

Lemma trim_all_space (s : jsstring) : forallb is_space s = true -> trim s = [].
Proof.
  intros H. unfold trim. rewrite (dropWhile_all _ _ H). reflexivity.
Qed.

Lemma trimmed_nil : trimmed [].
Proof. reflexivity. Qed.

(** X17.  The five text fields of every draft, the issue, the facts, the
    analysis, the actions and the raw text, neither begin nor end with
    white space: trimming them changes nothing. *)
Theorem draft_fields_trimmed (content field : jsstring) :
  In field (text_fields (parseDraftContent content)) ->
  trimmed field
  /\ (forall c rest, field = c :: rest -> is_space c = false)
  /\ (forall c rest, field = rest ++ [c] -> is_space c = false).
Proof.
  intros I.
  assert (T : trimmed field).
  { assert (G : forall label, trimmed (getSection (normalized content) label)).
    { intros label. unfold getSection.
      destruct (search _ _); [apply trim_trimmed|apply trimmed_nil]. }
    unfold text_fields, parseDraftContent in I.
    cbn [issue facts analysis actions raw In] in I.
    destruct I as [<-|[<-|[<-|[<-|[<-|[]]]]]]; try apply G.
    - destruct (existsb _ _); [apply G|apply trim_trimmed].
    - apply trim_trimmed. }
  split; [exact T|]. split.
  - intros c rest E. apply (trim_head field c rest). rewrite T. exact E.
  - intros c rest E. apply (trim_last field c rest). rewrite T. exact E.
Qed.

Lemma draft_fields_trimmed_witness :
  trimmed (facts (parseDraftContent labelled_example))
  /\ facts (parseDraftContent labelled_example) = lit "Facts text".
Proof.
  destruct (draft_fields_trimmed labelled_example
              (facts (parseDraftContent labelled_example))) as (T & _).
  - right. left. reflexivity.
  - split; [exact T|]. vm_compute. reflexivity.
Defined.

Lemma split_lines_no_LF (s line : jsstring) :
  In line (split_lines s) -> ~ In LF line.
Proof.
  revert line. induction s as [|c s IH]; intros line; cbn [split_lines].
  - intros [<-|[]] [].
  - destruct (N.eqb_spec c LF) as [->|N].
    + intros [<-|I]; [intros []|apply IH, I].
    + destruct (split_lines s) as [|l ls] eqn:E.
      * intros [<-|[]] [H|[]]. congruence.
      * intros [<-|I].
        -- intros [H|H]; [congruence|]. apply (IH l); [left; reflexivity|exact H].
        -- apply IH. right. exact I.
Qed.

Lemma clean_line_head (line : jsstring) (c : char) (rest : jsstring) :
  clean_line line = c :: rest -> bullet c = false.
Proof.
  unfold clean_line, trim. intros E.
  destruct (dropWhile bullet line) as [|d t] eqn:D; [discriminate E|].
  pose proof (dropWhile_head bullet line d t D) as B.
  assert (S : is_space d = false).
  { unfold bullet in B. apply orb_false_iff in B as [_ B]. exact B. }
  cbn [dropWhile] in E. rewrite S in E.
  destruct (dropWhile_split is_space (rev (d :: t))) as (dropped & R & _).
  apply (f_equal (@rev char)) in R. rewrite rev_involutive, rev_app_distr in R.
  rewrite E in R. cbn in R. injection R as <- _. exact B.
Qed.

(** X18.  Every entry of the reference list of a draft is a piece of one
    line: it is not empty, holds no line feed, has no white space at either
    end, and does not begin with a hyphen, a star, a digit or a dot, so a
    citation that begins with a number loses that number. *)
Theorem references_clean (content reference : jsstring) :
  In reference (references (parseDraftContent content)) ->
  reference <> []
  /\ trimmed reference
  /\ ~ In LF reference
  /\ (forall c rest, reference = c :: rest -> bullet c = false)
  /\ exists line,
       In line (split_lines (refsBlock (normalized content)))
       /\ reference = clean_line line.
Proof.
  unfold parseDraftContent. cbn [references]. unfold references_of.
  intros I. apply filter_In in I as [I N].
  apply in_map_iff in I as (line & <- & L).
  split; [destruct (clean_line line); [discriminate N|discriminate]|].
  split; [apply trim_trimmed|].
  split.
  - intros H. apply trim_In, dropWhile_In in H.
    exact (split_lines_no_LF _ _ L H).
  - split; [apply clean_line_head|]. exists line. auto.
Qed.

Lemma references_clean_witness :
  references (parseDraftContent
                (lit "REFERENCES" ++ [LF] ++ lit "14 CFR 91.119 - minimum altitudes"))
  = [lit "CFR 91.119 - minimum altitudes"]
  /\ trimmed (lit "CFR 91.119 - minimum altitudes").
Proof.
  assert (E : references (parseDraftContent
                (lit "REFERENCES" ++ [LF] ++ lit "14 CFR 91.119 - minimum altitudes"))
              = [lit "CFR 91.119 - minimum altitudes"])
    by (vm_compute; reflexivity).
  split; [exact E|].
  destruct (references_clean
              (lit "REFERENCES" ++ [LF] ++ lit "14 CFR 91.119 - minimum altitudes")
              (lit "CFR 91.119 - minimum altitudes")) as (_ & T & _).
  - rewrite E. left. reflexivity.
  - exact T.
Defined.

(* ================================================================= *)
(** ** Parsing again *)

Lemma replace_crlf_plain (s : jsstring) : ~ In CR s -> replace_crlf s = s.
Proof.
  induction s as [|c s IH]; intros N; [reflexivity|].
  assert (C : (c =? CR)%N = false).
  { apply N.eqb_neq. intros ->. apply N. left. reflexivity. }
  cbn [replace_crlf]. destruct s as [|d s']; [reflexivity|].
  rewrite C. cbn [andb]. rewrite IH; [reflexivity|].
  intros I. apply N. right. exact I.
Qed.

Lemma parse_of_normalized (c1 c2 : jsstring) :
  normalized c1 = normalized c2 -> parseDraftContent c1 = parseDraftContent c2.
Proof. intros E. unfold parseDraftContent. rewrite E. reflexivity. Qed.

(** X19.  The raw text of a draft parses into the same draft when the
    content holds no carriage return: the draft is a function of the
    normalized text, and normalizing a text without CR twice is normalizing
    it once.  With carriage returns this can fail: CR CR LF becomes CR LF,
    which a second normalization turns into LF. *)
Theorem reparse_raw (content : jsstring) :
  (~ In CR content ->
   parseDraftContent (raw (parseDraftContent content))
   = parseDraftContent content)
  /\ raw (parseDraftContent stacked_returns) = [97; 13; 10; 98]%N
  /\ raw (parseDraftContent (raw (parseDraftContent stacked_returns)))
     = [97; 10; 98]%N.
Proof.
  split; [|split; reflexivity].
  intros N. apply parse_of_normalized.
  change (raw (parseDraftContent content)) with (normalized content).
  unfold normalized. rewrite (replace_crlf_plain content N).
  rewrite replace_crlf_plain.
  - apply trim_trimmed.
  - intros I. apply N. apply trim_In, I.
Qed.

Lemma without_CR (s : jsstring) :
  forallb (fun c => negb (c =? CR)%N) s = true -> ~ In CR s.
Proof.
  intros F I. rewrite forallb_forall in F. specialize (F CR I).
  rewrite N.eqb_refl in F. discriminate F.
Qed.

Lemma reparse_raw_witness :
  parseDraftContent (raw (parseDraftContent labelled_example))
  = parseDraftContent labelled_example.
Proof.
  destruct (reparse_raw labelled_example) as (R & _).
  apply R. apply without_CR. reflexivity.
Defined.

(* ================================================================= *)
(** ** The chat and the draft *)

(** X20.  [sendChat] does nothing at all with a message made of white space
    only, the empty message included, nor while a response is streaming:
    the transcript and the draft are left as they are. *)
Theorem sendChat_ignores (isSending : bool) (message : jsstring) (a : App) :
  forallb is_space message = true \/ isSending = true ->
  sendChat isSending message a = a.
Proof.
  intros [B| ->]; unfold sendChat.
  - rewrite (trim_all_space message B). reflexivity.
  - rewrite orb_true_r. reflexivity.
Qed.

Lemma sendChat_ignores_witness :
  sendChat false [32; 10; 9; 160]%N Town.in_drafting = Town.in_drafting
  /\ sendChat true (lit "Altitude was 300 m") Town.in_drafting = Town.in_drafting
  /\ sendChat false (lit "Altitude was 300 m") Town.in_drafting <> Town.in_drafting.
Proof.
  split; [|split].
  - apply sendChat_ignores. left. reflexivity.
  - apply sendChat_ignores. right. reflexivity.
  - vm_compute. discriminate.
Defined.

Lemma incident_parsed (agency : option jsstring) :
  (agency = None \/ exists name, agency = Some name /\ In name AGENCIES) ->
  parseDraftContent (content (incident agency))
  = {| issue := content (incident agency); facts := []; analysis := [];
       actions := []; references := []; raw := content (incident agency) |}.
Proof.
  intros [->|(name & -> & I)]; [vm_compute; reflexivity|].
  unfold AGENCIES in I. cbn [In] in I.
  repeat (destruct I as [<-|I]; [vm_compute; reflexivity|]).
  contradiction.
Qed.

Lemma random_element_cases {A} (r : Q) (l : list A) :
  random_element r l = None
  \/ exists e, random_element r l = Some e /\ In e l.
Proof.
  destruct (random_element r l) as [e|] eqn:E; [right|left; reflexivity].
  exists e. split; [reflexivity|]. eapply random_element_In, E.
Qed.

(** X21.  When the timer starts a compliance event and the effect that
    follows the transcript has run, the draft is the incident message
    itself: its raw text and its issue are the whole message, naming the
    agency drawn, the other sections are empty and there is no reference.
    That holds for every agency of the catalogue and every draw. *)
Theorem alert_draft_is_incident (rnd : Q) (uid : jsstring) (a : App) :
  published a ->
  active (compliance (state a)) = false ->
  (0 < remainingDeliveries (state a))%nat ->
  draftSections (state (draft_effect (triggerCompliance false rnd uid a)))
  = {| issue := content (incident (random_element rnd AGENCIES));
       facts := []; analysis := []; actions := []; references := [];
       raw := content (incident (random_element rnd AGENCIES)) |}.
Proof.
  intros [_ P] A R.
  assert (C : complianceRef (refs a) = compliance (state a))
    by (rewrite P; reflexivity).
  assert (M : remainingRef (refs a) = remainingDeliveries (state a))
    by (rewrite P; reflexivity).
  unfold triggerCompliance. rewrite C, M, A.
  apply Nat.ltb_lt in R. rewrite R. cbn [negb andb].
  unfold draft_effect.
  cbn [state update setLogs setDraftSections setChatMessages setCompliance
       chatMessages filter rev app role incident content].
  assert (N : nonempty (lit "Incident: " ++ shown (random_element rnd AGENCIES)
                        ++ lit " has flagged Santa's sleigh during Christmas Eve gift runs. Share the airspace segment, timing, reindeer-safe altitudes, and corrective steps so the elves can draft a festive, regulation-ready response.")
              = true) by reflexivity.
  cbn [filter role incident rev app content] in *.
  rewrite N. cbn [state update setDraftSections draftSections].
  apply (incident_parsed (random_element rnd AGENCIES)).
  destruct (random_element_cases rnd AGENCIES) as [->|(e & -> & I)]; eauto.
Qed.

Lemma alert_draft_is_incident_witness :
  raw (draftSections (state (draft_effect
         (triggerCompliance false (1 # 2) (lit "log-2") Town.opening))))
  = lit "Incident: Deutsche Flugsicherung (DFS) - Germany has flagged Santa's sleigh during Christmas Eve gift runs. Share the airspace segment, timing, reindeer-safe altitudes, and corrective steps so the elves can draft a festive, regulation-ready response.".
Proof.
  rewrite (alert_draft_is_incident (1 # 2) (lit "log-2") Town.opening).
  - reflexivity.
  - split; reflexivity.
  - reflexivity.
  - vm_compute. apply le_S, le_n.
Defined.

(* ================================================================= *)
(** ** Matching, step by step *)

Lemma section_regex_unfold (label : string) :
  section_regex label
  = Cat (word "PART") (Cat (Plus ws) (Cat (word label) section_tail)).
Proof. reflexivity. Qed.

(** A word of the pattern matches where the text begins with it. *)
Lemma exec_word (w : string) (s cap : jsstring) (k : cont) :
  exec (word w) s cap k
  = if begins w s then k (skipn (String.length w) s) cap else None.
Proof.
  revert s. induction w as [|a w IH]; intros s; cbn [word exec begins].
  - reflexivity.
  - destruct s as [|c s]; [reflexivity|].
    destruct (ichar a c); cbn [andb]; [|reflexivity].
    rewrite IH. reflexivity.
Qed.

(** Where the search finds a match. *)
Lemma search_found (r : regex) (s : jsstring) :
  search r s <> None <->
  exists before rest, s = before ++ rest /\ exec r rest [] found <> None.
Proof.
  split.
  - induction s as [|c s IH]; cbn [search]; fold found.
    + destruct (exec r [] [] found) eqn:E; [|congruence].
      intros _. exists [], []. split; [reflexivity|congruence].
    + destruct (exec r (c :: s) [] found) eqn:E.
      * intros _. exists [], (c :: s). split; [reflexivity|congruence].
      * intros H. destruct (IH H) as (before & rest & -> & X).
        exists (c :: before), rest. auto.
  - intros (before & rest & -> & X).
    induction before as [|c before IH].
    + cbn [app]. destruct rest as [|c rest]; cbn [search]; fold found;
        destruct (exec r _ [] found); congruence.
    + cbn [app search]. fold found.
      destruct (exec r (c :: before ++ rest) [] found); [congruence|exact IH].
Qed.

(** A greedy run followed by something that succeeds everywhere succeeds. *)
Lemma star_greedy_total (p : charset) (k : cont) :
  (forall s cap, k s cap <> None) ->
  forall s cap, star_greedy p s cap k <> None.
Proof.
  intros K s cap. destruct s as [|c s]; cbn [star_greedy]; [apply K|].
  destruct (p c); [|apply K].
  destruct (star_greedy p s cap k); cbn; [congruence|apply K].
Qed.

(** A greedy run succeeds when what follows succeeds after some of it. *)
Lemma star_greedy_reach (p : charset) (k : cont) (run s cap : jsstring) :
  forallb p run = true -> k s cap <> None ->
  star_greedy p (run ++ s) cap k <> None.
Proof.
  intros F K. induction run as [|c run IH]; cbn [app].
  - destruct s as [|c s]; cbn [star_greedy]; [exact K|].
    destruct (p c); [|exact K].
    destruct (star_greedy p s cap k); cbn; [congruence|exact K].
  - cbn in F. apply andb_true_iff in F as [Pc F].
    cbn [star_greedy]. rewrite Pc.
    destruct (star_greedy p (run ++ s) cap k); cbn;
      [congruence|exfalso; apply (IH F); reflexivity].
Qed.

(** Where a greedy run that succeeds has stopped. *)
Lemma star_greedy_stop (p : charset) (k : cont) (s cap : jsstring) :
  star_greedy p s cap k <> None ->
  exists run rest,
    s = run ++ rest /\ forallb p run = true /\ k rest cap <> None.
Proof.
  induction s as [|c s IH]; cbn [star_greedy].
  - intros K. exists [], []. auto.
  - destruct (p c) eqn:Pc.
    + destruct (star_greedy p s cap k) eqn:E; cbn.
      * intros _. destruct IH as (run & rest & -> & F & K); [congruence|].
        exists (c :: run), rest. cbn. rewrite Pc, F. auto.
      * intros K. exists [], (c :: s). auto.
    + intros K. exists [], (c :: s). auto.
Qed.

(** A lazy run of any code units succeeds when what follows succeeds at the
    end of the text. *)
Lemma star_lazy_total (k : cont) :
  (forall cap, k [] cap <> None) ->
  forall s cap, star_lazy any s cap k <> None.
Proof.
  intros K s cap. induction s as [|c s IH]; cbn [star_lazy].
  - destruct (k [] cap) eqn:E; [congruence|]. exfalso. apply (K cap E).
  - destruct (k (c :: s) cap); [congruence|]. cbn. exact IH.
Qed.

Lemma exec_star_total (p : charset) (r : regex) (k : cont) :
  (forall s cap, exec r s cap k <> None) ->
  forall s cap, exec (Cat (Star p) r) s cap k <> None.
Proof. intros H s cap. cbn [exec]. apply star_greedy_total. exact H. Qed.

Lemma exec_opt_total (p : charset) (r : regex) (k : cont) :
  (forall s cap, exec r s cap k <> None) ->
  forall s cap, exec (Cat (Opt p) r) s cap k <> None.
Proof.
  intros H s cap. cbn [exec]. destruct s as [|c s]; [apply H|].
  destruct (p c); [|apply H].
  destruct (exec r s cap k) eqn:E; cbn; [congruence|apply H].
Qed.

(** After the label, the rest of the expression of a section matches any
    text. *)
Lemma section_tail_total (s cap : jsstring) :
  exec section_tail s cap found <> None.
Proof.
  revert s cap. unfold section_tail, seq. cbn [fold_right].
  apply exec_star_total, exec_opt_total, exec_star_total, exec_opt_total,
    exec_star_total.
  intros s cap. cbn [exec]. apply star_lazy_total.
  intros c. cbn. discriminate.
Qed.

(** Where the expression of a label matches, the one of label I does. *)
Lemma section_I_matches (label : string) (s : jsstring) :
  In label labels ->
  exec (section_regex label) s [] found <> None ->
  exec (section_regex "I") s [] found <> None.
Proof.
  intros L. rewrite !section_regex_unfold.
  cbn [exec]. rewrite !exec_word.
  destruct (begins "PART" s); [|congruence].
  destruct (skipn (String.length "PART") s) as [|c s1]; [congruence|].
  destruct (ws c); [|congruence].
  intros H. apply star_greedy_stop in H as (run & rest & -> & F & K).
  apply star_greedy_reach; [exact F|].
  rewrite exec_word in K |- *.
  assert (B : begins label rest = true -> begins "I" rest = true).
  { cbn in L. destruct L as [<-|[<-|[<-|[<-|[]]]]]; cbn [begins];
      destruct rest as [|i rest]; try discriminate;
      destruct (ichar "I" i); cbn; congruence. }
  destruct (begins label rest); [|congruence].
  rewrite (B eq_refl). apply section_tail_total.
Qed.

(** X22.  Whenever the parser recognizes one of the labels II, III and IV
    it recognizes the label I as well, there or earlier: the expression of
    label I matches the first letter of the longer labels, and the rest of
    the label becomes part of the body.  So a text with a PART II but no
    PART I still gets an issue, which begins inside that label. *)
Theorem section_I_recognized (text : jsstring) (label : string) :
  (In label labels ->
   search (section_regex label) text <> None ->
   search (section_regex "I") text <> None)
  /\ issue (parseDraftContent (lit "PART II: Facts only")) = lit "I: Facts only".
Proof.
  split; [|vm_compute; reflexivity].
  intros L H. apply search_found in H as (before & rest & -> & X).
  apply search_found. exists before, rest. split; [reflexivity|].
  eapply section_I_matches; eassumption.
Qed.

Lemma section_I_recognized_witness :
  search (section_regex "I") (lit "Summary. PART IV - call the tower") <> None
  /\ issue (parseDraftContent (lit "Summary. PART IV - call the tower"))
     = lit "V - call the tower".
Proof.
  destruct (section_I_recognized (lit "Summary. PART IV - call the tower") "IV")
    as (R & _).
  split.
  - apply R.
    + cbn. tauto.
    + vm_compute. discriminate.
  - vm_compute. reflexivity.
Defined.

(** The class of [dash] is the one the source file spells out.  A heading
    written with an en dash or an em dash keeps the dash in the issue;
    U+201A after the label is taken as part of the heading, and so are,
    the flag [i] folding cases, the small a with diaeresis and the capital
    I with grave. *)
Example dash_as_written :
  issue (parseDraftContent (lit "PART I " ++ [8211%N] ++ lit " Issue text"))
  = [8211%N] ++ lit " Issue text"
  /\ issue (parseDraftContent (lit "PART I " ++ [8212%N] ++ lit ": Issue text"))
     = [8212%N] ++ lit ": Issue text"
  /\ issue (parseDraftContent (lit "PART I " ++ [8218%N] ++ lit " Issue text"))
     = lit "Issue text"
  /\ issue (parseDraftContent (lit "PART I " ++ [228%N] ++ lit ": Issue text"))
     = lit "Issue text"
  /\ issue (parseDraftContent (lit "PART I " ++ [204%N] ++ lit ": Issue text"))
     = lit "Issue text".
Proof. vm_compute. repeat split. Qed.
